(** * Mask consistency engine of the data-centric platform client

    A shallow embedding of [Compute4Mask] (dcp_client/utils/utils.py) and
    the properties of its mask operations.

    Masks are 2D integer arrays.  A mask is a list of rows of [Z]: the two
    channels are slices of one array, of the element type the segmentation
    file was stored with, and no operation below does arithmetic on a pixel
    value or converts it, so the values are unbounded integers.  A NumPy
    operation that raises ([IndexError], [ValueError]) is [None] in the
    option monad. *)

From Stdlib Require Import ZArith Lia Sorted.
From stdpp Require Import base option list gmap strings.

Module Compute4Mask.

Abbreviation grid := (list (list Z)).
Abbreviation index := (nat * nat)%type.

(** ** The NumPy operations the class uses *)

(** [m.shape] of a 2D array. *)
Definition np_shape (m : grid) : nat * nat :=
  (length m, from_option length 0 (head m)).

(** Two arrays have the same shape: rows of the same lengths. *)
Definition same_shape (a b : grid) : Prop := length <$> a = length <$> b.

#[global] Instance same_shape_dec (a b : grid) : Decision (same_shape a b) :=
  list_eq_dec (length <$> a) (length <$> b).

(** [np.zeros_like(m)]. *)
Definition np_zeros_like (m : grid) : grid := map (map (fun _ => 0%Z)) m.

(** [m[r, c]]. *)
Definition get_at (m : grid) (p : index) : option Z :=
  row ← m !! p.1; row !! p.2.

(** [m[r, c] = v]; out of range is an [IndexError]. *)
Definition set_at (m : grid) (p : index) (v : Z) : option grid :=
  row ← m !! p.1; _ ← row !! p.2; Some (<[p.1 := <[p.2 := v]> row]> m).

(** [m[(rr, cc)]]: the values at a list of coordinates, in that order. *)
Definition take_at (m : grid) (ps : list index) : option (list Z) :=
  mapM (get_at m) ps.

(** [m[(rr, cc)] = v]. *)
Fixpoint put_at (m : grid) (ps : list index) (v : Z) : option grid :=
  match ps with
  | [] => Some m
  | p :: ps' => m' ← set_at m p v; put_at m' ps' v
  end.

(** [np.where(m == v)]: the coordinates holding [v], in row-major order. *)
Fixpoint where_row (row : list Z) (v : Z) (r c : nat) : list index :=
  match row with
  | [] => []
  | x :: row' =>
      if (x =? v)%Z then (r, c) :: where_row row' v r (S c)
      else where_row row' v r (S c)
  end.

Fixpoint where_rows (m : grid) (v : Z) (r : nat) : list index :=
  match m with
  | [] => []
  | row :: m' => where_row row v r 0 ++ where_rows m' v (S r)
  end.

Definition np_where_eq (m : grid) (v : Z) : list index := where_rows m v 0.

(** [np.unique(xs)]: the distinct values, ascending. *)
Fixpoint insert_unique (x : Z) (l : list Z) : list Z :=
  match l with
  | [] => [x]
  | y :: l' =>
      if (x <? y)%Z then x :: l
      else if (x =? y)%Z then l
      else y :: insert_unique x l'
  end.

Definition np_unique (xs : list Z) : list Z := foldr insert_unique [] xs.

(** Number of occurrences of [v]: the entry of [v] in the [counts] array of
    [np.unique(xs, return_counts=True)]. *)
Fixpoint count (v : Z) (xs : list Z) : nat :=
  match xs with
  | [] => 0
  | x :: xs' => if (x =? v)%Z then S (count v xs') else count v xs'
  end.

Definition np_unique_counts (xs : list Z) : list Z * list nat :=
  let vals := np_unique xs in (vals, map (fun v => count v xs) vals).

(** [np.argmax(l)]: the index of the first occurrence of the maximum;
    a [ValueError] on an empty sequence. *)
Fixpoint np_argmax (l : list nat) : option nat :=
  match l with
  | [] => None
  | x :: l' =>
      if forallb (fun y => y <=? x) l' then Some 0
      else S <$> np_argmax l'
  end.

(** [np.unique] of a 2D array works on the flattened array. *)
Definition flatten (m : grid) : list Z := concat m.

(** Monadic left fold: a [for] loop whose body may raise. *)
Fixpoint foldM {A B : Type} (f : A -> B -> option A) (a : A) (l : list B)
  : option A :=
  match l with
  | [] => Some a
  | b :: l' => a' ← f a b; foldM f a' l'
  end.

(** ** get_unique_objects *)

(** [list(np.unique(active_mask)[1:])]. *)
Definition get_unique_objects (active_mask : grid) : list Z :=
  drop 1 (np_unique (flatten active_mask)).

(** ** add_contour *)

(** [vals, counts = np.unique(xs, return_counts=True); vals[np.argmax(counts)]],
    the vote taken in [add_contour] and in [compute_new_labels_mask]. *)
Definition majority (xs : list Z) : option Z :=
  let '(class_vals, counts) := np_unique_counts xs in
  i ← np_argmax counts; class_vals !! i.

(** One iteration of the loop of [add_contour]. *)
Definition add_contour_step (instance_mask labels_mask : grid)
  (instance_id : Z) : option grid :=
  let where_instances := np_where_eq instance_mask instance_id in
  sel ← take_at labels_mask where_instances;
  class_id ← majority sel;
  put_at labels_mask (np_where_eq instance_mask instance_id) class_id.

Definition add_contour (labels_mask instance_mask : grid) : option grid :=
  foldM (add_contour_step instance_mask) labels_mask
        (get_unique_objects instance_mask).

(** ** compute_new_instance_mask *)

(** [m[b == v]], indexing with a boolean mask: NumPy raises [IndexError]
    unless the mask has the shape of the indexed array. *)
Definition take_mask (m b : grid) (v : Z) : option (list Z) :=
  if decide (same_shape b m) then take_at m (np_where_eq b v) else None.

(** One iteration of the loop; the loop state is [instance_mask], which the
    body updates in place. *)
Definition compute_new_instance_mask_step (labels_mask instance_mask : grid)
  (instance_id : Z) : option grid :=
  sel ← take_mask labels_mask instance_mask instance_id;
  let unique_items_in_class_mask := np_unique sel in
  if bool_decide (length unique_items_in_class_mask = 1)
     && bool_decide (unique_items_in_class_mask !! 0 = Some 0%Z)
  then put_at instance_mask (np_where_eq instance_mask instance_id) 0
  else Some instance_mask.

Definition compute_new_instance_mask (labels_mask instance_mask : grid)
  : option grid :=
  foldM (compute_new_instance_mask_step labels_mask) instance_mask
        (get_unique_objects instance_mask).

(** ** compute_new_labels_mask *)

(** [instance_id in old_instances]. *)
Definition py_in (x : Z) (l : list Z) : bool := existsb (Z.eqb x) l.

(** One iteration of the loop; the loop state is [new_labels_mask]. *)
Definition compute_new_labels_mask_step
  (labels_mask instance_mask original_instance_mask : grid)
  (old_instances : list Z) (new_labels_mask : grid) (instance_id : Z)
  : option grid :=
  let where_instance := np_where_eq instance_mask instance_id in
  if (instance_id =? 0)%Z then Some new_labels_mask
  else if negb (py_in instance_id old_instances) then
    put_at new_labels_mask where_instance instance_id
  else
    let where_instance_orig := np_where_eq original_instance_mask instance_id in
    sel ← take_at labels_mask where_instance;
    let num_classes := np_unique sel in
    if bool_decide (length num_classes = 1) then
      c ← num_classes !! 0; put_at new_labels_mask where_instance c
    else
      orig ← take_at labels_mask where_instance_orig;
      old_class_id ← majority orig;
      put_at new_labels_mask where_instance old_class_id.

Definition compute_new_labels_mask
  (labels_mask instance_mask original_instance_mask : grid)
  (old_instances : list Z) : option grid :=
  foldM (compute_new_labels_mask_step labels_mask instance_mask
           original_instance_mask old_instances)
        (np_zeros_like labels_mask)
        (np_unique (flatten instance_mask)).

(** ** assert_consistent_labels *)

(** [instance_mask == instance_id], a boolean array. *)
Definition eq_mask (m : grid) (v : Z) : list (list bool) :=
  map (map (fun x => (x =? v)%Z)) m.

Section Validator.

(** [skimage.measure.label]: connected-component labelling of a boolean
    array, background 0 and components numbered from 1. *)
Variable label : list (list bool) -> grid.

(** The tuple the function returns, also its loop state:
    [(user_annot_error, mask_mismatch_error, faulty_ids_annot,
      faulty_ids_missmatch)]. *)
Definition report := (bool * bool * list Z * list Z)%type.

Definition assert_consistent_labels_step (instance_mask class_mask : grid)
  (st : report) (instance_id : Z) : option report :=
  let '(user_annot_error, mask_mismatch_error,
        faulty_ids_annot, faulty_ids_missmatch) := st in
  let components :=
    np_unique (flatten (label (eq_mask instance_mask instance_id))) in
  let '(user_annot_error, faulty_ids_annot) :=
    if 2 <? length components
    then (true, faulty_ids_annot ++ [instance_id])
    else (user_annot_error, faulty_ids_annot) in
  sel ← take_at class_mask (np_where_eq instance_mask instance_id);
  let '(mask_mismatch_error, faulty_ids_missmatch) :=
    if 1 <? length (np_unique sel)
    then (true, faulty_ids_missmatch ++ [instance_id])
    else (mask_mismatch_error, faulty_ids_missmatch) in
  Some (user_annot_error, mask_mismatch_error,
        faulty_ids_annot, faulty_ids_missmatch).

(** [mask] is the stacked pair [(mask[0], mask[1])]. *)
Definition assert_consistent_labels (mask : grid * grid) : option report :=
  let '(instance_mask, class_mask) := mask in
  foldM (assert_consistent_labels_step instance_mask class_mask)
        (false, false, [], [])
        (get_unique_objects instance_mask).

End Validator.

(** ** get_contours *)

Section Contours.

(** The scikit-image routines are taken as given.  A contour is the (N, 2)
    array of points [find_contours] yields; a routine that raises is [None]. *)
Variable contour : Type.
Variable level : Type.
(** [skimage.measure.find_contours(image, level)]. *)
Variable find_contours : grid -> option level -> option (list contour).
(** [contour.shape[0]]. *)
Variable contour_len : contour -> nat.
(** [contour.astype(int)]. *)
Variable astype_int : contour -> contour.
(** [skimage.draw.polygon_perimeter(contour[:, 0], contour[:, 1], shape)]:
    the pixel coordinates [(rr, cc)] of the perimeter. *)
Variable polygon_perimeter : contour -> nat * nat -> option (list index).

(** [single_obj_mask = np.zeros_like(instance_mask);
     single_obj_mask[instance_mask == instance_id] = 1]. *)
Definition single_obj_mask (instance_mask : grid) (instance_id : Z) : grid :=
  map (map (fun x => if (x =? instance_id)%Z then 1%Z else 0%Z)) instance_mask.

(** [contour_sizes.index(max(contour_sizes))]: first index of the maximum. *)
Definition index_of_max (contour_sizes : list nat) : option nat :=
  np_argmax contour_sizes.

(** The choice between the contours found; [contours[0]] on an empty list
    is an [IndexError]. *)
Definition select_contour (contours : list contour) : option contour :=
  if 1 <? length contours then
    let contour_sizes := map contour_len contours in
    i ← index_of_max contour_sizes;
    astype_int <$> contours !! i
  else contours !! 0.

(** The body of the [try] block for one object. *)
Definition draw_contour (instance_mask : grid) (contours_level : option level)
  (contour_mask : grid) (instance_id : Z) : option grid :=
  contours ← find_contours (single_obj_mask instance_mask instance_id)
                           contours_level;
  contour ← select_contour contours;
  coords ← polygon_perimeter contour (np_shape contour_mask);
  put_at contour_mask coords instance_id.

(** One iteration: the bare [except] catches every failure of the body and
    prints a line for the object.  The write into [contour_mask] is the last
    statement of the body, and NumPy checks the indices before it writes, so
    a body that fails leaves the mask as it was.  The loop state is the
    contour mask and the ids printed so far. *)
Definition get_contours_step (instance_mask : grid)
  (contours_level : option level) (st : grid * list Z) (instance_id : Z)
  : grid * list Z :=
  match draw_contour instance_mask contours_level st.1 instance_id with
  | Some contour_mask => (contour_mask, st.2)
  | None => (st.1, st.2 ++ [instance_id])
  end.

Definition get_contours_loop (instance_mask : grid)
  (contours_level : option level) (st : grid * list Z) (instance_ids : list Z)
  : grid * list Z :=
  foldl (get_contours_step instance_mask contours_level) st instance_ids.

(** The returned contour mask, paired with the ids of the objects for which
    "Could not create contour for instance id" was printed. *)
Definition get_contours (instance_mask : grid) (contours_level : option level)
  : grid * list Z :=
  get_contours_loop instance_mask contours_level
    (np_zeros_like instance_mask, []) (get_unique_objects instance_mask).

End Contours.

End Compute4Mask.

Import Compute4Mask.

(** * Pointwise reading of the indexed operations

    On arrays of one shape, reading and writing at [np.where(I == v)] is a
    row by row, pixel by pixel traversal of the two arrays side by side. *)

(** The values of [lrow] at the positions where [irow] holds [v]. *)
Fixpoint select_row (v : Z) (irow lrow : list Z) : list Z :=
  match irow, lrow with
  | i :: irow', x :: lrow' =>
      if (i =? v)%Z then x :: select_row v irow' lrow'
      else select_row v irow' lrow'
  | _, _ => []
  end.

Fixpoint select (v : Z) (I L : grid) : list Z :=
  match I, L with
  | irow :: I', lrow :: L' => select_row v irow lrow ++ select v I' L'
  | _, _ => []
  end.

(** [lrow] with [c] written at the positions where [irow] holds [v]. *)
Fixpoint assign_row (v c : Z) (irow lrow : list Z) : list Z :=
  match irow, lrow with
  | i :: irow', x :: lrow' =>
      (if (i =? v)%Z then c else x) :: assign_row v c irow' lrow'
  | _, _ => lrow
  end.

Fixpoint assign (v c : Z) (I L : grid) : grid :=
  match I, L with
  | irow :: I', lrow :: L' => assign_row v c irow lrow :: assign v c I' L'
  | _, _ => L
  end.

(** The vote [v] is a most frequent value of [xs], and the least of them. *)
Definition lowest_majority (v : Z) (xs : list Z) : Prop :=
  v ∈ xs
  ∧ (∀ w, count w xs <= count v xs)
  ∧ (∀ w, count w xs = count v xs → (v <= w)%Z).

(** Every pixel value is non-negative: ids are positive, 0 is background. *)
Definition nonneg_mask (m : grid) : Prop := Forall (Forall (Z.le 0)) m.

(** A loop body that, when it returns, has left the array as it was or has
    written one value on the pixels of the object it was called for. *)
Definition writes_only (I : grid) (step : grid → Z → option grid)
  (ids : list Z) : Prop :=
  ∀ id N N', id ∈ ids → same_shape I N → step N id = Some N' →
    N' = N ∨ ∃ c, N' = assign id c I N.

(** The class value [compute_new_labels_mask] writes for a non-background
    object: the branches of its loop body, without the write. *)
Definition labels_value
  (labels_mask instance_mask original_instance_mask : grid)
  (old_instances : list Z) (instance_id : Z) : option Z :=
  if negb (py_in instance_id old_instances) then Some instance_id
  else
    sel ← take_at labels_mask (np_where_eq instance_mask instance_id);
    let num_classes := np_unique sel in
    if bool_decide (length num_classes = 1) then num_classes !! 0
    else
      orig ← take_at labels_mask
                (np_where_eq original_instance_mask instance_id);
      majority orig.

(** The report of [assert_consistent_labels] is coherent: each flag is set
    exactly when its list of faulty ids is not empty, and each list is
    strictly ascending. *)
Definition report_consistent (rep : report) : Prop :=
  let '(user_annot_error, mask_mismatch_error,
        faulty_ids_annot, faulty_ids_missmatch) := rep in
  (user_annot_error = true ↔ faulty_ids_annot ≠ [])
  ∧ (mask_mismatch_error = true ↔ faulty_ids_missmatch ≠ [])
  ∧ StronglySorted Z.lt faulty_ids_annot
  ∧ StronglySorted Z.lt faulty_ids_missmatch.

(** A tracer to run [get_contours] on examples: the contour of an object is
    the list of its pixels, and an object of one pixel has no contour. *)
Definition px_find_contours (m : grid) (_ : option unit)
  : option (list (list index)) :=
  let ps := np_where_eq m 1 in
  if length ps <=? 1 then Some [] else Some [ps].

Definition px_polygon_perimeter (c : list index) (_ : nat * nat)
  : option (list index) := Some c.

Definition px_get_contours (instance_mask : grid) : grid * list Z :=
  get_contours (list index) unit px_find_contours length id
    px_polygon_perimeter instance_mask None.

(** [I] with every value listed in [D] replaced by 0: the instance mask
    after the objects of [D] were deleted. *)
Definition zero_set (D : list Z) (I : grid) : grid :=
  map (map (λ x, if decide (x ∈ D) then 0%Z else x)) I.

(** * The mask handling of the napari window

    The methods of [NapariWindow] (dcp_client/gui/napari_window.py) that
    work on the masks.  The window state modelled is the part these methods
    read and write: the dictionaries keyed by layer name, the name of the
    selected layer and the index of the active channel.  Calls into Qt and
    napari (widgets, [layer.refresh()], warning boxes, moving and saving
    files) do not touch it; the array a method stores in the layer is part
    of its result.  A missing dictionary key ([KeyError]) is [None]. *)

Module NapariWindow.

(** [m[contours_mask != 0] = 0]: assignment through a boolean mask, which
    must have the shape of [m]. *)
Definition suppress_contours (contours_mask m : grid) : option grid :=
  if decide (same_shape contours_mask m)
  then Some (zip_with (zip_with (λ k x, if (k =? 0)%Z then x else 0%Z))
               contours_mask m)
  else None.

(** [a.astype(bool)]. *)
Definition astype_bool (a : grid) : list (list bool) :=
  map (map (λ x, negb (x =? 0)%Z)) a.

Record window := {
  cur_selected_seg : string;
  active_mask_index : nat;
  original_instance_mask : gmap string grid;
  original_class_mask : gmap string grid;
  instances : gmap string (list Z);
  contours_mask : gmap string grid
}.

(** [update_instance_mask(instance_mask, labels_mask)]; the second
    component is the array stored in [layer.data[0]]. *)
Definition update_instance_mask (w : window) (instance_mask labels_mask : grid)
  : option (window * grid) :=
  let seg := cur_selected_seg w in
  labels_mask ← add_contour labels_mask instance_mask;
  new_instance_mask ← compute_new_instance_mask labels_mask instance_mask;
  Some ({| cur_selected_seg := seg;
           active_mask_index := active_mask_index w;
           original_instance_mask :=
             <[seg := new_instance_mask]> (original_instance_mask w);
           original_class_mask :=
             <[seg := labels_mask]> (original_class_mask w);
           instances :=
             <[seg := get_unique_objects new_instance_mask]> (instances w);
           contours_mask := contours_mask w |},
        new_instance_mask).

Section Tracer.

Variable contour : Type.
Variable level : Type.
Variable find_contours : grid → option level → option (list contour).
Variable contour_len : contour → nat.
Variable astype_int : contour → contour.
Variable polygon_perimeter : contour → nat * nat → option (list index).

(** [Compute4Mask.get_contours(instance_mask)], with the default level. *)
Definition contours_of (instance_mask : grid) : grid :=
  (get_contours contour level find_contours contour_len astype_int
     polygon_perimeter instance_mask None).1.

(** [update_labels_mask(instance_mask)]; the second component is
    [vis_labels_mask], the array stored in [layer.data[1]]. *)
Definition update_labels_mask (w : window) (instance_mask : grid)
  : option (window * grid) :=
  let seg := cur_selected_seg w in
  old_class_mask ← original_class_mask w !! seg;
  old_instance_mask ← original_instance_mask w !! seg;
  old_instances ← instances w !! seg;
  new_class_mask ← compute_new_labels_mask old_class_mask instance_mask
                      old_instance_mask old_instances;
  let contours := contours_of instance_mask in
  vis_labels_mask ← suppress_contours contours new_class_mask;
  Some ({| cur_selected_seg := seg;
           active_mask_index := active_mask_index w;
           original_instance_mask :=
             <[seg := instance_mask]> (original_instance_mask w);
           original_class_mask :=
             <[seg := new_class_mask]> (original_class_mask w);
           instances :=
             <[seg := get_unique_objects instance_mask]> (instances w);
           contours_mask := <[seg := contours]> (contours_mask w) |},
        vis_labels_mask).

(** What [axis_changed] hands to the layer, if anything. *)
Inductive shown :=
| ShowInstance (m : grid)
| ShowClass (m : grid)
| ShowNothing.

(** [self.active_mask_index = i]. *)
Definition set_active_mask_index (w : window) (i : nat) : window :=
  {| cur_selected_seg := cur_selected_seg w;
     active_mask_index := i;
     original_instance_mask := original_instance_mask w;
     original_class_mask := original_class_mask w;
     instances := instances w;
     contours_mask := contours_mask w |}.

(** [axis_changed]: [current_step] is [viewer.dims.current_step[0]] and
    [masks] the deep copy of [layer.data].  [add_contour] writes into
    [masks[1]], so the array passed on to [update_instance_mask] is its
    result. *)
Definition axis_changed (w : window) (current_step : nat)
  (masks : grid * grid) : option (window * shown) :=
  let w := set_active_mask_index w current_step in
  let seg := cur_selected_seg w in
  match active_mask_index w with
  | 0 =>
      class_mask_with_contours ← add_contour masks.2 masks.1;
      old_class_mask ← original_class_mask w !! seg;
      if negb (bool_decide (astype_bool class_mask_with_contours
                            = astype_bool old_class_mask))
      then
        '(w', m) ← update_instance_mask w masks.1 class_mask_with_contours;
        Some (w', ShowInstance m)
      else Some (w, ShowNothing)
  | 1 =>
      old_instance_mask ← original_instance_mask w !! seg;
      if negb (bool_decide (masks.1 = old_instance_mask))
      then
        '(w', m) ← update_labels_mask w masks.1;
        Some (w', ShowClass m)
      else Some (w, ShowNothing)
  | _ => Some (w, ShowNothing)
  end.

End Tracer.

Section Curate.

Variable label : list (list bool) → grid.

(** ['_seg' in name]. *)
Definition py_str_in (sub s : string) : bool :=
  match String.index 0 sub s with Some _ => true | None => false end.

(** How a click on "Move to 'Curated dataset' folder" ends. *)
Inductive curate_outcome :=
| AlreadyCurated
| NoSegSelected
| AnnotationWarning (faulty_ids_annot : list Z)
| MismatchWarning (faulty_ids_missmatch : list Z)
| Saved (file_name : string) (seg : grid * grid).

(** [on_add_to_curated_button_clicked]: [seg_name_to_save] is the name of
    the active layer and [seg] its data, which the method updates in place;
    the second component of the result is the data of the layer after the
    call. *)
Definition on_add_to_curated_button_clicked
  (cur_selected_path train_data_path seg_name_to_save : string)
  (seg : grid * grid) : option (curate_outcome * (grid * grid)) :=
  if String.eqb cur_selected_path train_data_path
  then Some (AlreadyCurated, seg)
  else if negb (py_str_in "_seg" seg_name_to_save)
  then Some (NoSegSelected, seg)
  else
    class_mask ← add_contour seg.2 seg.1;
    let seg := (seg.1, class_mask) in
    '(annot_error, mask_mismatch_error,
      faulty_ids_annot, faulty_ids_missmatch)
      ← assert_consistent_labels label seg;
    if annot_error : bool
    then Some (AnnotationWarning faulty_ids_annot, seg)
    else if mask_mismatch_error : bool
         then Some (MismatchWarning faulty_ids_missmatch, seg)
         else Some (Saved (String.append seg_name_to_save ".tiff") seg, seg).

End Curate.

End NapariWindow.

(** The state of the selected layer is coherent: the three dictionaries hold
    an entry for it, the registered ids are those of the instance snapshot,
    and the two snapshots have one shape. *)
Definition window_ok (w : NapariWindow.window) : Prop :=
  ∃ O C,
    NapariWindow.original_instance_mask w
      !! NapariWindow.cur_selected_seg w = Some O
    ∧ NapariWindow.original_class_mask w
        !! NapariWindow.cur_selected_seg w = Some C
    ∧ NapariWindow.instances w !! NapariWindow.cur_selected_seg w
      = Some (get_unique_objects O)
    ∧ same_shape O C.

(** * Facts on the array operations *)

Lemma same_shape_refl (a : grid) : same_shape a a.
Proof. reflexivity. Qed.

Lemma same_shape_sym (a b : grid) : same_shape a b → same_shape b a.
Proof. unfold same_shape. congruence. Qed.

Lemma same_shape_trans (a b c : grid) :
  same_shape a b → same_shape b c → same_shape a c.
Proof. unfold same_shape. congruence. Qed.

Lemma same_shape_cons (a b : list Z) (A B : grid) :
  same_shape (a :: A) (b :: B) ↔ length a = length b ∧ same_shape A B.
Proof.
  unfold same_shape. rewrite !fmap_cons. split.
  - intros H. by injection H.
  - intros [-> ->]. reflexivity.
Qed.

Lemma same_shape_nil_l (B : grid) : same_shape [] B → B = [].
Proof. destruct B; [done|]. unfold same_shape. by rewrite fmap_cons. Qed.

Lemma same_shape_zeros_like (m : grid) : same_shape (np_zeros_like m) m.
Proof.
  unfold same_shape, np_zeros_like. induction m as [|row m IH]; [done|].
  cbn [map]. rewrite !fmap_cons, IH. f_equal. apply length_map.
Qed.

Lemma take_at_app (m : grid) (ps qs : list index) :
  take_at m (ps ++ qs)
  = xs ← take_at m ps; ys ← take_at m qs; Some (xs ++ ys).
Proof.
  unfold take_at. induction ps as [|p ps IH]; simpl.
  - by destruct (mapM (get_at m) qs).
  - destruct (get_at m p); simpl; [|done]. rewrite IH.
    destruct (mapM (get_at m) ps); simpl; [|done].
    by destruct (mapM (get_at m) qs).
Qed.

Lemma put_at_app (m : grid) (ps qs : list index) (v : Z) :
  put_at m (ps ++ qs) v = m' ← put_at m ps v; put_at m' qs v.
Proof.
  revert m. induction ps as [|p ps IH]; intros m; simpl; [done|].
  destruct (set_at m p v); simpl; [apply IH|done].
Qed.

Lemma insert_middle {A : Type} (l1 l2 : list A) (x y : A) :
  <[length l1 := y]> (l1 ++ x :: l2) = l1 ++ y :: l2.
Proof. induction l1 as [|a l1 IH]; simpl; [done|]. by rewrite IH. Qed.

Lemma get_at_middle (Lpre Lsuf : grid) (pre suf : list Z) (x : Z) r c :
  length Lpre = r → length pre = c →
  get_at (Lpre ++ (pre ++ x :: suf) :: Lsuf) (r, c) = Some x.
Proof.
  intros Hr Hc. unfold get_at. simpl.
  rewrite (list_lookup_middle Lpre Lsuf _ r (eq_sym Hr)). simpl.
  by apply list_lookup_middle.
Qed.

Lemma set_at_middle (Lpre Lsuf : grid) (pre suf : list Z) (x y : Z) r c :
  length Lpre = r → length pre = c →
  set_at (Lpre ++ (pre ++ x :: suf) :: Lsuf) (r, c) y
  = Some (Lpre ++ (pre ++ y :: suf) :: Lsuf).
Proof.
  intros Hr Hc. unfold set_at. simpl.
  rewrite (list_lookup_middle Lpre Lsuf _ r (eq_sym Hr)). simpl.
  rewrite (list_lookup_middle pre suf x c (eq_sym Hc)). simpl.
  subst r c. f_equal. by rewrite !insert_middle.
Qed.

Lemma take_at_where_row v (irow : list Z) :
  ∀ (lrow pre : list Z) (Lpre Lsuf : grid) r c,
    length irow = length lrow → length Lpre = r → length pre = c →
    take_at (Lpre ++ (pre ++ lrow) :: Lsuf) (where_row irow v r c)
    = Some (select_row v irow lrow).
Proof.
  induction irow as [|i irow IH]; intros [|x lrow] pre Lpre Lsuf r c Hl Hr Hc;
    simpl in *; try done.
  assert (Hrest : take_at (Lpre ++ (pre ++ x :: lrow) :: Lsuf)
                    (where_row irow v r (S c)) = Some (select_row v irow lrow)).
  { rewrite (cons_middle x pre lrow), app_assoc.
    apply IH; [lia|done|]. rewrite length_app. simpl. lia. }
  destruct (i =? v)%Z; [|done].
  change (take_at ?m (?p :: ?ps)) with (y ← get_at m p; k ← take_at m ps; Some (y :: k)).
  rewrite (get_at_middle _ _ _ _ _ r c Hr Hc). simpl. by rewrite Hrest.
Qed.

Lemma put_at_where_row v y (irow : list Z) :
  ∀ (lrow pre : list Z) (Lpre Lsuf : grid) r c,
    length irow = length lrow → length Lpre = r → length pre = c →
    put_at (Lpre ++ (pre ++ lrow) :: Lsuf) (where_row irow v r c) y
    = Some (Lpre ++ (pre ++ assign_row v y irow lrow) :: Lsuf).
Proof.
  induction irow as [|i irow IH]; intros [|x lrow] pre Lpre Lsuf r c Hl Hr Hc;
    simpl in *; try done.
  destruct (i =? v)%Z.
  - simpl. rewrite (set_at_middle _ _ _ _ _ _ r c Hr Hc). simpl.
    rewrite (cons_middle y pre lrow), app_assoc.
    rewrite (cons_middle y pre (assign_row _ _ _ _)), (app_assoc pre [y]).
    apply IH; [lia|done|]. rewrite length_app. simpl. lia.
  - rewrite (cons_middle x pre lrow), app_assoc.
    rewrite (cons_middle x pre (assign_row _ _ _ _)), (app_assoc pre [x]).
    apply IH; [lia|done|]. rewrite length_app. simpl. lia.
Qed.

Lemma take_at_where_rows v (I : grid) :
  ∀ (L Lpre : grid) r,
    same_shape I L → length Lpre = r →
    take_at (Lpre ++ L) (where_rows I v r) = Some (select v I L).
Proof.
  induction I as [|irow I IH]; intros L Lpre r Hs Hr.
  - by rewrite (same_shape_nil_l _ Hs).
  - destruct L as [|lrow L]; [by apply same_shape_sym, same_shape_nil_l in Hs|].
    apply same_shape_cons in Hs as [Hl Hs]. simpl.
    rewrite take_at_app.
    pose proof (take_at_where_row v irow lrow [] Lpre L r 0 Hl Hr eq_refl) as H.
    change ([] ++ lrow) with lrow in H. rewrite H. simpl.
    rewrite (cons_middle lrow Lpre L), app_assoc.
    rewrite IH; [done|done|]. rewrite length_app. simpl. lia.
Qed.

Lemma put_at_where_rows v y (I : grid) :
  ∀ (L Lpre : grid) r,
    same_shape I L → length Lpre = r →
    put_at (Lpre ++ L) (where_rows I v r) y = Some (Lpre ++ assign v y I L).
Proof.
  induction I as [|irow I IH]; intros L Lpre r Hs Hr.
  - by rewrite (same_shape_nil_l _ Hs).
  - destruct L as [|lrow L]; [by apply same_shape_sym, same_shape_nil_l in Hs|].
    apply same_shape_cons in Hs as [Hl Hs]. simpl.
    rewrite put_at_app.
    pose proof (put_at_where_row v y irow lrow [] Lpre L r 0 Hl Hr eq_refl) as H.
    change ([] ++ lrow) with lrow in H.
    change ([] ++ assign_row v y irow lrow) with (assign_row v y irow lrow) in H.
    rewrite H. simpl.
    rewrite (cons_middle (assign_row v y irow lrow) Lpre L), app_assoc.
    rewrite IH; [|done|rewrite length_app; simpl; lia].
    by rewrite <- app_assoc.
Qed.

(** Reading [L[np.where(I == v)]] on arrays of one shape. *)
Lemma take_at_where (v : Z) (I L : grid) :
  same_shape I L → take_at L (np_where_eq I v) = Some (select v I L).
Proof. intros Hs. by apply (take_at_where_rows v I L [] 0). Qed.

(** Writing [L[np.where(I == v)] = y] on arrays of one shape. *)
Lemma put_at_where (v y : Z) (I L : grid) :
  same_shape I L → put_at L (np_where_eq I v) y = Some (assign v y I L).
Proof. intros Hs. by apply (put_at_where_rows v y I L [] 0). Qed.

(** ** [select] and [assign] *)

Lemma length_assign_row v c (irow lrow : list Z) :
  length (assign_row v c irow lrow) = length lrow.
Proof.
  revert lrow. induction irow as [|i irow IH]; intros [|x lrow]; simpl; auto.
Qed.

Lemma same_shape_assign v c (I L : grid) : same_shape (assign v c I L) L.
Proof.
  revert L. induction I as [|irow I IH]; intros [|lrow L]; simpl;
    try apply same_shape_refl.
  apply same_shape_cons. split; [apply length_assign_row | apply IH].
Qed.

Lemma same_shape_assign_r v c (I N : grid) :
  same_shape I N → same_shape I (assign v c I N).
Proof.
  intros H. eapply same_shape_trans; [exact H|].
  apply same_shape_sym, same_shape_assign.
Qed.

Lemma select_row_assign_same v c (irow lrow : list Z) :
  Forall (eq c) (select_row v irow (assign_row v c irow lrow)).
Proof.
  revert lrow. induction irow as [|i irow IH]; intros [|x lrow]; simpl;
    try constructor.
  destruct (i =? v)%Z; [constructor; [done|apply IH] | apply IH].
Qed.

Lemma select_assign_same v c (I L : grid) :
  Forall (eq c) (select v I (assign v c I L)).
Proof.
  revert L. induction I as [|irow I IH]; intros [|lrow L]; simpl;
    try constructor.
  apply Forall_app. split; [apply select_row_assign_same | apply IH].
Qed.

Lemma select_row_assign_other v w c (irow lrow : list Z) :
  v ≠ w → select_row v irow (assign_row w c irow lrow) = select_row v irow lrow.
Proof.
  intros Hne. revert lrow.
  induction irow as [|i irow IH]; intros [|x lrow]; simpl; try done.
  rewrite IH. destruct (Z.eqb_spec i v) as [->|]; [|done].
  by destruct (Z.eqb_spec v w).
Qed.

Lemma select_assign_other v w c (I L : grid) :
  v ≠ w → select v I (assign w c I L) = select v I L.
Proof.
  intros Hne. revert L.
  induction I as [|irow I IH]; intros [|lrow L]; simpl; try done.
  by rewrite IH, select_row_assign_other.
Qed.

Lemma assign_row_fixed v c (irow lrow : list Z) :
  Forall (eq c) (select_row v irow lrow) → assign_row v c irow lrow = lrow.
Proof.
  revert lrow. induction irow as [|i irow IH]; intros [|x lrow]; simpl;
    try done.
  destruct (i =? v)%Z.
  - intros [-> H]%Forall_cons. by rewrite IH.
  - intros H. by rewrite IH.
Qed.

Lemma assign_fixed v c (I L : grid) :
  Forall (eq c) (select v I L) → assign v c I L = L.
Proof.
  revert L. induction I as [|irow I IH]; intros [|lrow L]; simpl; try done.
  intros [H1 H2]%Forall_app. by rewrite assign_row_fixed, IH.
Qed.

Lemma select_row_nonempty v (irow lrow : list Z) :
  length irow = length lrow → v ∈ irow → select_row v irow lrow ≠ [].
Proof.
  revert lrow. induction irow as [|i irow IH]; intros [|x lrow] Hl Hin;
    simpl in *; try done.
  - by apply not_elem_of_nil in Hin.
  - destruct (Z.eqb_spec i v) as [->|Hne]; [done|].
    apply elem_of_cons in Hin as [->|Hin]; [done|]. apply IH; [lia|done].
Qed.

Lemma select_nonempty v (I L : grid) :
  same_shape I L → v ∈ flatten I → select v I L ≠ [].
Proof.
  unfold flatten. revert L.
  induction I as [|irow I IH]; intros [|lrow L] Hs Hin; simpl in *.
  - by apply not_elem_of_nil in Hin.
  - by apply same_shape_nil_l in Hs.
  - by apply same_shape_sym, same_shape_nil_l in Hs.
  - apply same_shape_cons in Hs as [Hl Hs].
    apply elem_of_app in Hin as [Hin|Hin].
    + intros [H _]%app_eq_nil. by eapply select_row_nonempty.
    + intros [_ H]%app_eq_nil. by eapply IH.
Qed.

Lemma get_at_cons_0 (row : list Z) (m : grid) c :
  get_at (row :: m) (0, c) = row !! c.
Proof. reflexivity. Qed.

Lemma get_at_cons_S (row : list Z) (m : grid) r c :
  get_at (row :: m) (S r, c) = get_at m (r, c).
Proof. reflexivity. Qed.

Lemma get_at_flatten (m : grid) p x : get_at m p = Some x → x ∈ flatten m.
Proof.
  destruct p as [r c]. unfold flatten. revert r.
  induction m as [|row m IH]; intros [|r]; try done.
  - rewrite get_at_cons_0. intros H. simpl. apply elem_of_app. left.
    by eapply list_elem_of_lookup_2.
  - rewrite get_at_cons_S. intros H. simpl. apply elem_of_app. right. eauto.
Qed.

Lemma lookup_assign_row v y (irow lrow : list Z) c i :
  length irow = length lrow → irow !! c = Some i →
  assign_row v y irow lrow !! c = if (i =? v)%Z then Some y else lrow !! c.
Proof.
  revert lrow c. induction irow as [|i0 irow IH]; intros [|x lrow] [|c] Hl Hi;
    simpl in *; try done.
  - injection Hi as ->. by destruct (i =? v)%Z.
  - apply IH; [lia|done].
Qed.

(** The array after [L[np.where(I == v)] = y], pixel by pixel. *)
Lemma get_at_assign v y (I L : grid) p i :
  same_shape I L → get_at I p = Some i →
  get_at (assign v y I L) p = if (i =? v)%Z then Some y else get_at L p.
Proof.
  destruct p as [r c]. revert L r.
  induction I as [|irow I IH]; intros [|lrow L] [|r] Hs Hi;
    try (by destruct c); try (by apply same_shape_sym, same_shape_nil_l in Hs).
  - apply same_shape_cons in Hs as [Hl Hs]. simpl assign.
    rewrite !get_at_cons_0 in *. by apply lookup_assign_row.
  - apply same_shape_cons in Hs as [Hl Hs]. simpl assign.
    rewrite !get_at_cons_S in *. by apply IH.
Qed.

Lemma get_at_same_shape (I L : grid) p :
  same_shape I L → is_Some (get_at I p) → is_Some (get_at L p).
Proof.
  destruct p as [r c]. revert L r.
  induction I as [|irow I IH]; intros [|lrow L] [|r] Hs Hi;
    try (by destruct Hi); try (by apply same_shape_sym, same_shape_nil_l in Hs).
  - apply same_shape_cons in Hs as [Hl Hs]. rewrite get_at_cons_0 in *.
    apply lookup_lt_is_Some. apply lookup_lt_is_Some in Hi. lia.
  - apply same_shape_cons in Hs as [Hl Hs]. rewrite get_at_cons_S in *. eauto.
Qed.

(** ** [np.unique] *)

Lemma elem_of_insert_unique x y (l : list Z) :
  y ∈ insert_unique x l ↔ y = x ∨ y ∈ l.
Proof.
  induction l as [|a l IH]; simpl.
  - by rewrite elem_of_cons.
  - destruct (Z.ltb_spec x a); [by rewrite elem_of_cons|].
    destruct (Z.eqb_spec x a) as [->|].
    + rewrite elem_of_cons. tauto.
    + rewrite !elem_of_cons, IH. tauto.
Qed.

Lemma elem_of_np_unique x (xs : list Z) : x ∈ np_unique xs ↔ x ∈ xs.
Proof.
  unfold np_unique. induction xs as [|a xs IH]; simpl; [done|].
  by rewrite elem_of_insert_unique, elem_of_cons, IH.
Qed.

Lemma insert_unique_sorted x (l : list Z) :
  StronglySorted Z.lt l → StronglySorted Z.lt (insert_unique x l).
Proof.
  induction 1 as [|a l Hs IH Ha]; simpl.
  - repeat constructor.
  - destruct (Z.ltb_spec x a).
    + constructor; [by constructor|]. constructor; [done|].
      eapply Forall_impl; [exact Ha|]. intros; simpl in *; lia.
    + destruct (Z.eqb_spec x a); [by constructor|].
      constructor; [done|]. apply Forall_forall. intros y Hy.
      apply elem_of_insert_unique in Hy as [->|Hy]; [lia|].
      by eapply Forall_forall in Ha.
Qed.

Lemma np_unique_sorted (xs : list Z) : StronglySorted Z.lt (np_unique xs).
Proof.
  unfold np_unique. induction xs; simpl; [constructor|].
  by apply insert_unique_sorted.
Qed.

Lemma sorted_NoDup (l : list Z) : StronglySorted Z.lt l → NoDup l.
Proof.
  induction 1 as [|a l Hs IH Ha]; [constructor|].
  apply NoDup_cons. split; [|done]. intros Hin.
  eapply Forall_forall in Ha; [|exact Hin]. lia.
Qed.

Lemma sorted_drop n (l : list Z) :
  StronglySorted Z.lt l → StronglySorted Z.lt (drop n l).
Proof.
  intros H. revert n. induction H as [|a l Hs IH Ha]; intros [|n]; simpl;
    try constructor; auto.
Qed.

Lemma sorted_lookup_lt (l : list Z) i j a b :
  StronglySorted Z.lt l → l !! i = Some a → l !! j = Some b → i < j →
  (a < b)%Z.
Proof.
  intros H. revert i j. induction H as [|x l Hs IH Hx]; intros [|i] [|j];
    simpl; try done; try lia.
  - intros [= ->] Hb _. eapply Forall_forall in Hx; [exact Hx|].
    by eapply list_elem_of_lookup_2.
  - intros Ha Hb Hij. apply (IH i j); [done|done|lia].
Qed.

Lemma np_unique_nil_inv (xs : list Z) : np_unique xs = [] → xs = [].
Proof.
  destruct xs as [|a xs]; [done|]. intros H.
  assert (Ha : a ∈ np_unique (a :: xs)) by (apply elem_of_np_unique; by left).
  rewrite H in Ha. by apply not_elem_of_nil in Ha.
Qed.

(** One distinct value: [np.unique(xs)] is a singleton. *)
Lemma np_unique_singleton (xs : list Z) v :
  xs ≠ [] → (∀ x, x ∈ xs → x = v) → np_unique xs = [v].
Proof.
  intros Hne Hall.
  pose proof (np_unique_sorted xs) as Hs.
  destruct (np_unique xs) as [|a [|b l]] eqn:E.
  - by apply np_unique_nil_inv in E.
  - f_equal. apply Hall, elem_of_np_unique. rewrite E. by left.
  - assert (a = v) by (apply Hall, elem_of_np_unique; rewrite E; by left).
    assert (b = v).
    { apply Hall, elem_of_np_unique. rewrite E. right. by left. }
    pose proof (sorted_lookup_lt _ 0 1 a b Hs eq_refl eq_refl). lia.
Qed.

Lemma np_unique_singleton_inv (xs : list Z) v :
  np_unique xs = [v] → ∀ x, x ∈ xs → x = v.
Proof.
  intros E x Hx. apply elem_of_np_unique in Hx. rewrite E in Hx.
  apply elem_of_cons in Hx as [->|Hx]; [done|]. by apply not_elem_of_nil in Hx.
Qed.

(** ** Counting and the vote *)

Lemma count_pos v (xs : list Z) : v ∈ xs ↔ 0 < count v xs.
Proof.
  induction xs as [|x xs IH]; simpl.
  - split; [by intros ?%not_elem_of_nil | lia].
  - rewrite elem_of_cons, IH. destruct (Z.eqb_spec x v) as [->|Hne].
    + split; [lia|auto].
    + split; [intros [->|?]; [done|lia] | auto].
Qed.

Lemma np_argmax_is_Some (l : list nat) : l ≠ [] → is_Some (np_argmax l).
Proof.
  induction l as [|x l IH]; [done|]. intros _. simpl.
  destruct (forallb _ l) eqn:E; [by eexists|].
  destruct l as [|y l]; [done|]. destruct IH as [i Hi]; [done|].
  rewrite Hi. by eexists.
Qed.

(** [np.argmax] returns an index of the maximum, and the first such. *)
Lemma np_argmax_spec (l : list nat) i :
  np_argmax l = Some i →
  ∃ m, l !! i = Some m
       ∧ (∀ j y, l !! j = Some y → y <= m)
       ∧ (∀ j y, j < i → l !! j = Some y → y < m).
Proof.
  revert i. induction l as [|x l IH]; intros i; simpl; [done|].
  destruct (forallb _ l) eqn:E.
  - intros [= <-]. exists x. split; [done|]. split; [|intros; lia].
    intros [|j] y; simpl; [by intros [= ->]|]. intros Hy.
    rewrite forallb_forall in E. apply Nat.leb_le, E, list_elem_of_In.
    by eapply list_elem_of_lookup_2.
  - destruct (np_argmax l) as [i'|] eqn:Ei; simpl; [|done]. intros [= <-].
    destruct (IH i' eq_refl) as (m & Hm & Hmax & Hfirst).
    assert (Hx : x < m).
    { destruct (Nat.lt_ge_cases x m) as [|Hge]; [done|]. exfalso.
      assert (forallb (λ y, y <=? x) l = true); [|congruence].
      apply forallb_forall. intros y Hy%list_elem_of_In.
      apply list_elem_of_lookup in Hy as [j Hj]. apply Nat.leb_le.
      specialize (Hmax j y Hj). lia. }
    exists m. split; [done|]. split.
    + intros [|j] y; simpl; [intros [= ->]; lia | apply Hmax].
    + intros [|j] y Hlt; simpl; [intros [= ->]; lia|].
      apply Hfirst. lia.
Qed.

Lemma majority_is_Some (xs : list Z) : xs ≠ [] → is_Some (majority xs).
Proof.
  intros Hne. unfold majority, np_unique_counts.
  destruct (np_argmax_is_Some (map (λ v, count v xs) (np_unique xs)))
    as [i Hi].
  { intros H%map_eq_nil. by apply np_unique_nil_inv in H. }
  rewrite Hi. simpl.
  destruct (np_argmax_spec _ _ Hi) as (m & Hm & _).
  apply lookup_lt_is_Some. apply lookup_lt_Some in Hm.
  by rewrite length_map in Hm.
Qed.

(** The vote returns a most frequent value, and among the values tied for
    the highest count the least one. *)
Lemma majority_lowest (xs : list Z) v :
  majority xs = Some v → lowest_majority v xs.
Proof.
  unfold majority, np_unique_counts.
  destruct (np_argmax _) as [i|] eqn:Hi; simpl; [|done]. intros Hv.
  destruct (np_argmax_spec _ _ Hi) as (m & Hm & Hmax & Hfirst).
  change (map ?f ?l) with (f <$> l) in Hm, Hmax, Hfirst.
  rewrite list_lookup_fmap, Hv in Hm. injection Hm as Hm.
  assert (Hin : v ∈ xs).
  { apply elem_of_np_unique. by eapply list_elem_of_lookup_2. }
  assert (Hle : ∀ w, count w xs <= count v xs).
  { intros w. destruct (decide (w ∈ xs)) as [Hw|Hw].
    - apply elem_of_np_unique, list_elem_of_lookup in Hw as [j Hj].
      rewrite Hm. apply (Hmax j). by rewrite list_lookup_fmap, Hj.
    - rewrite count_pos in Hw. lia. }
  split; [done|]. split; [done|]. intros w Hw.
  assert (Hwin : w ∈ xs) by (apply count_pos; apply count_pos in Hin; lia).
  apply elem_of_np_unique, list_elem_of_lookup in Hwin as [j Hj].
  destruct (Nat.lt_trichotomy j i) as [Hlt|[->|Hgt]].
  - specialize (Hfirst j (count w xs) Hlt).
    rewrite list_lookup_fmap, Hj in Hfirst. specialize (Hfirst eq_refl). lia.
  - rewrite Hv in Hj. injection Hj as ->. lia.
  - pose proof (sorted_lookup_lt _ i j v w (np_unique_sorted xs) Hv Hj Hgt).
    lia.
Qed.

Lemma majority_uniform (xs : list Z) c :
  xs ≠ [] → Forall (eq c) xs → majority xs = Some c.
Proof.
  intros Hne Hall. destruct (majority_is_Some xs Hne) as [v Hv].
  rewrite Hv. f_equal. apply majority_lowest in Hv as [Hin _].
  eapply Forall_forall in Hall; [|exact Hin]. done.
Qed.

(** ** Loops over object ids *)

Lemma foldM_fixed {A B : Type} (f : A → B → option A) (a : A) (l : list B) :
  (∀ b, b ∈ l → f a b = Some a) → foldM f a l = Some a.
Proof.
  induction l as [|b l IH]; intros H; simpl; [done|].
  rewrite H by (by left). simpl. apply IH. intros b' Hb'. apply H. by right.
Qed.

Lemma foldM_is_Some {A B : Type} (P : A → Prop) (f : A → B → option A)
  (a : A) (l : list B) :
  P a →
  (∀ a b, b ∈ l → P a → ∃ a', f a b = Some a' ∧ P a') →
  ∃ a', foldM f a l = Some a' ∧ P a'.
Proof.
  revert a. induction l as [|b l IH]; intros a Ha H; simpl; [eauto|].
  destruct (H a b) as (a' & -> & Ha'); [by left|done|]. simpl.
  apply IH; [done|]. intros a0 b0 Hb0. apply H. by right.
Qed.

Lemma writes_only_cons I step a ids :
  writes_only I step (a :: ids) → writes_only I step ids.
Proof. intros H id N N' Hin. apply H. by right. Qed.

Lemma writes_only_step I step a ids N N' :
  writes_only I step (a :: ids) → same_shape I N → step N a = Some N' →
  same_shape I N'
  ∧ ∀ v, v ≠ a →
      select v I N' = select v I N
      ∧ ∀ p, get_at I p = Some v → get_at N' p = get_at N p.
Proof.
  intros Hw Hs Hstep.
  destruct (Hw a N N') as [->|[c ->]]; [by left|done|done|done|].
  split; [by apply same_shape_assign_r|]. intros v Hne. split.
  - by apply select_assign_other.
  - intros p Hp. rewrite (get_at_assign a c I N p v Hs Hp).
    by destruct (Z.eqb_spec v a).
Qed.

(** Frame: an object the loop does not visit keeps its pixels. *)
Lemma loop_frame I step ids :
  writes_only I step ids →
  ∀ N R, same_shape I N → foldM step N ids = Some R →
    same_shape I R
    ∧ ∀ v, v ∉ ids →
        select v I R = select v I N
        ∧ ∀ p, get_at I p = Some v → get_at R p = get_at N p.
Proof.
  induction ids as [|a ids IH]; intros Hw N R Hs Hf; simpl in Hf.
  - injection Hf as <-. auto.
  - destruct (step N a) as [N1|] eqn:Hstep; simpl in Hf; [|done].
    destruct (writes_only_step _ _ _ _ _ _ Hw Hs Hstep) as [Hs1 Hfr1].
    destruct (IH (writes_only_cons _ _ _ _ Hw) N1 R Hs1 Hf) as [HsR HfrR].
    split; [done|]. intros v Hv. apply not_elem_of_cons in Hv as [Hne Hv].
    destruct (Hfr1 v Hne) as [E1 G1]. destruct (HfrR v Hv) as [E2 G2].
    split; [congruence|]. intros p Hp. rewrite G2, G1; done.
Qed.

(** An object the loop visits once ends with the value written for it. *)
Lemma loop_written I step id c ids :
  writes_only I step ids → NoDup ids → id ∈ ids →
  ∀ N R, same_shape I N →
    (∀ N' N'', same_shape I N' → select id I N' = select id I N →
               step N' id = Some N'' → N'' = assign id c I N') →
    foldM step N ids = Some R →
    Forall (eq c) (select id I R)
    ∧ ∀ p, get_at I p = Some id → get_at R p = Some c.
Proof.
  induction ids as [|a ids IH]; intros Hw Hnd Hin N R Hs Hid Hf.
  - by apply not_elem_of_nil in Hin.
  - simpl in Hf. destruct (step N a) as [N1|] eqn:Hstep; simpl in Hf; [|done].
    apply NoDup_cons in Hnd as [Ha Hnd].
    destruct (decide (id = a)) as [->|Hne].
    + rewrite (Hid N N1 Hs eq_refl Hstep) in *.
      destruct (loop_frame I step ids (writes_only_cons _ _ _ _ Hw)
                  _ R (same_shape_assign_r a c I N Hs) Hf) as [_ Hfr].
      destruct (Hfr a Ha) as [E G]. split.
      * rewrite E. apply select_assign_same.
      * intros p Hp. rewrite (G p Hp), (get_at_assign a c I N p a Hs Hp).
        by rewrite Z.eqb_refl.
    + apply elem_of_cons in Hin as [?|Hin]; [done|].
      destruct (writes_only_step _ _ _ _ _ _ Hw Hs Hstep) as [Hs1 Hfr1].
      destruct (Hfr1 id Hne) as [E1 _].
      apply (IH (writes_only_cons _ _ _ _ Hw) Hnd Hin N1 R Hs1); [|done].
      intros N' N'' Hs' E'. apply Hid; [done|congruence].
Qed.

(** ** get_unique_objects *)

Lemma get_unique_objects_sorted (m : grid) :
  StronglySorted Z.lt (get_unique_objects m).
Proof. apply sorted_drop, np_unique_sorted. Qed.

Lemma get_unique_objects_NoDup (m : grid) : NoDup (get_unique_objects m).
Proof. apply sorted_NoDup, get_unique_objects_sorted. Qed.

Lemma get_unique_objects_occur (m : grid) id :
  id ∈ get_unique_objects m → id ∈ flatten m.
Proof.
  unfold get_unique_objects. intros H. apply elem_of_np_unique.
  destruct (np_unique (flatten m)) as [|a l]; simpl in H; [done|].
  rewrite drop_0 in H. by right.
Qed.

(** The least value of the mask is the one dropped. *)
Lemma get_unique_objects_above (m : grid) id :
  id ∈ get_unique_objects m → ∃ y, y ∈ flatten m ∧ (y < id)%Z.
Proof.
  unfold get_unique_objects. intros H.
  pose proof (np_unique_sorted (flatten m)) as Hs.
  destruct (np_unique (flatten m)) as [|a l] eqn:E; simpl in H;
    [by apply not_elem_of_nil in H|].
  rewrite drop_0 in H. exists a. split.
  - apply elem_of_np_unique. rewrite E. by left.
  - apply StronglySorted_inv in Hs as [_ Hs].
    by eapply Forall_forall in Hs.
Qed.

Lemma nonneg_mask_flatten (m : grid) x :
  nonneg_mask m → x ∈ flatten m → (0 <= x)%Z.
Proof.
  unfold nonneg_mask, flatten. intros H Hx.
  apply list_elem_of_In, in_concat in Hx as (row & Hrow & Hx).
  apply list_elem_of_In in Hrow, Hx.
  eapply Forall_forall in H; [|exact Hrow]. by eapply Forall_forall in H.
Qed.

(** In a mask without negative values the background is never listed. *)
Lemma get_unique_objects_no_background (m : grid) :
  nonneg_mask m → 0%Z ∉ get_unique_objects m.
Proof.
  intros Hm H0.
  destruct (get_unique_objects_above m 0 H0) as (y & Hy & Hlt).
  pose proof (nonneg_mask_flatten m y Hm Hy). lia.
Qed.

(** On a mask with a background pixel and no negative value the function
    lists the object ids: the distinct non-zero values, ascending. *)
Lemma get_unique_objects_with_background (m : grid) :
  nonneg_mask m → 0%Z ∈ flatten m →
  StronglySorted Z.lt (get_unique_objects m)
  ∧ ∀ x, x ∈ get_unique_objects m ↔ x ∈ flatten m ∧ x ≠ 0%Z.
Proof.
  intros Hm H0. split; [apply get_unique_objects_sorted|]. intros x. split.
  - intros Hx. split; [by apply get_unique_objects_occur|]. intros ->.
    by apply (get_unique_objects_no_background m).
  - intros [Hx Hne]. unfold get_unique_objects.
    pose proof (np_unique_sorted (flatten m)) as Hs.
    apply elem_of_np_unique in Hx, H0.
    assert (Hge : ∀ y, y ∈ np_unique (flatten m) → (0 <= y)%Z).
    { intros y Hy. rewrite elem_of_np_unique in Hy.
      by apply (nonneg_mask_flatten m). }
    destruct (np_unique (flatten m)) as [|a l]; simpl;
      [by apply not_elem_of_nil in Hx|].
    rewrite drop_0. apply StronglySorted_inv in Hs as [_ Hs].
    apply elem_of_cons in Hx as [->|Hx]; [|done].
    apply elem_of_cons in H0 as [?|H0]; [done|].
    eapply Forall_forall in Hs; [|exact H0].
    specialize (Hge a (list_elem_of_here _ _)). lia.
Qed.

(** ** add_contour *)

Lemma add_contour_step_eq (I N : grid) id :
  same_shape I N →
  add_contour_step I N id
  = c ← majority (select id I N); Some (assign id c I N).
Proof.
  intros Hs. unfold add_contour_step. rewrite (take_at_where id I N Hs). simpl.
  destruct (majority _) as [c|]; simpl; [|done]. by apply put_at_where.
Qed.

Lemma add_contour_writes_only (I : grid) ids :
  writes_only I (add_contour_step I) ids.
Proof.
  intros id N N' _ Hs. rewrite (add_contour_step_eq I N id Hs).
  destruct (majority _) as [c|]; simpl; [|done]. intros [= <-]. eauto.
Qed.

(** On masks of one shape [add_contour] returns a mask of that shape. *)
Lemma add_contour_total (C I : grid) :
  same_shape C I → ∃ R, add_contour C I = Some R ∧ same_shape I R.
Proof.
  intros Hs. unfold add_contour.
  apply (foldM_is_Some (same_shape I)); [by apply same_shape_sym|].
  intros N id Hid HN. rewrite (add_contour_step_eq I N id HN).
  destruct (majority_is_Some (select id I N)) as [c ->].
  { apply select_nonempty; [done|]. by apply get_unique_objects_occur. }
  simpl. eexists. split; [done|]. by apply same_shape_assign_r.
Qed.

(** Every object the loop visits ends uniformly with the value voted on
    its pixels in the class mask passed in. *)
Lemma add_contour_object (C I R : grid) id :
  same_shape C I → add_contour C I = Some R → id ∈ get_unique_objects I →
  ∃ v, majority (select id I C) = Some v
       ∧ select id I R ≠ []
       ∧ Forall (eq v) (select id I R)
       ∧ ∀ p, get_at I p = Some id → get_at R p = Some v.
Proof.
  intros Hs%same_shape_sym HR Hid.
  pose proof (get_unique_objects_occur I id Hid) as Hocc.
  destruct (majority_is_Some (select id I C)) as [v Hv];
    [by apply select_nonempty|].
  exists v. split; [done|].
  destruct (loop_frame I _ _ (add_contour_writes_only I _) C R Hs HR)
    as [HsR _].
  split; [by apply select_nonempty|].
  apply (loop_written I (add_contour_step I) id v (get_unique_objects I)
           (add_contour_writes_only I _) (get_unique_objects_NoDup I) Hid
           C R Hs); [|done].
  intros N' N'' Hs' E. rewrite (add_contour_step_eq I N' id Hs'), E, Hv.
  simpl. by intros [= <-].
Qed.

(** [C1], evaluated on a mask without background: on the 2 x 2 mask whose
    four pixels belong to object 1, [get_unique_objects] returns the empty
    list, where the distinct non-zero values are [1]. *)
Theorem get_unique_objects_drops_least_id :
  get_unique_objects [[1; 1]; [1; 1]]%Z = []
  ∧ np_unique (flatten [[1; 1]; [1; 1]]%Z) = [1%Z].
Proof. split; reflexivity. Qed.

(** [C3], evaluated on a mask without background: object 1 covers the four
    pixels and holds the class values 3 and 9; [add_contour] returns the
    class mask as it was, with both values still on the object. *)
Theorem add_contour_skips_least_id :
  add_contour [[3; 3]; [3; 9]]%Z [[1; 1]; [1; 1]]%Z
  = Some [[3; 3]; [3; 9]]%Z
  ∧ take_at [[3; 3]; [3; 9]]%Z (np_where_eq [[1; 1]; [1; 1]]%Z 1)
    = Some [3; 3; 3; 9]%Z
  ∧ majority [3; 3; 3; 9]%Z = Some 3%Z.
Proof. repeat split. Qed.

(** [C4], evaluated on a mask without background: the objects 1 and 2 are
    both entirely background in the edited class mask;
    [compute_new_instance_mask] deletes object 2 and keeps object 1. *)
Theorem compute_new_instance_mask_keeps_least_id :
  compute_new_instance_mask [[0; 0]; [0; 0]]%Z [[1; 1]; [2; 2]]%Z
  = Some [[1; 1]; [0; 0]]%Z
  ∧ take_mask [[0; 0]; [0; 0]]%Z [[1; 1]; [2; 2]]%Z 1 = Some [0; 0]%Z.
Proof. split; reflexivity. Qed.

(** [C7] [add_contour] is idempotent: on a class mask and an instance mask
    of one shape it returns a mask [R], and applied to [R] and the same
    instance mask it returns [R] again. *)
Theorem add_contour_idempotent (C I : grid) :
  same_shape C I →
  ∃ R, add_contour C I = Some R ∧ add_contour R I = Some R.
Proof.
  intros Hs. destruct (add_contour_total C I Hs) as (R & HR & HsR).
  exists R. split; [done|]. unfold add_contour. apply foldM_fixed.
  intros id Hid.
  destruct (add_contour_object C I R id Hs HR Hid) as (v & _ & Hne & Hall & _).
  rewrite (add_contour_step_eq I R id HsR).
  rewrite (majority_uniform _ v Hne Hall). simpl.
  by rewrite (assign_fixed id v I R Hall).
Qed.

Lemma add_contour_idempotent_witness :
  same_shape [[5; 0; 7]; [0; 7; 7]]%Z [[1; 1; 0]; [0; 2; 2]]%Z
  ∧ ∃ R, add_contour [[5; 0; 7]; [0; 7; 7]]%Z [[1; 1; 0]; [0; 2; 2]]%Z = Some R
         ∧ add_contour R [[1; 1; 0]; [0; 2; 2]]%Z = Some R.
Proof.
  split; [reflexivity|].
  apply (add_contour_idempotent [[5; 0; 7]; [0; 7; 7]]%Z
           [[1; 1; 0]; [0; 2; 2]]%Z).
  reflexivity.
Defined.

(** [C9] [add_contour] leaves the class value of every background pixel as
    it was: for a class mask [C] and an instance mask [I] of one shape, [I]
    holding no negative value (0 is the background, ids are positive), the
    result at a pixel where [I] is 0 is the value of [C] there. *)
Theorem add_contour_keeps_background (C I : grid) :
  same_shape C I → nonneg_mask I →
  ∃ R, add_contour C I = Some R
       ∧ ∀ r c, get_at I (r, c) = Some 0%Z → get_at R (r, c) = get_at C (r, c).
Proof.
  intros Hs Hnn. destruct (add_contour_total C I Hs) as (R & HR & HsR).
  exists R. split; [done|]. intros r c Hp.
  destruct (loop_frame I _ _ (add_contour_writes_only I _) C R
              (same_shape_sym _ _ Hs) HR) as [_ Hfr].
  destruct (Hfr 0%Z (get_unique_objects_no_background I Hnn)) as [_ G].
  by apply G.
Qed.

(** With a negative value in the instance mask the value dropped by
    [get_unique_objects] is the negative one and 0 is visited as an object:
    the two background pixels, of class 7 and 8, both end with class 7. *)
Remark add_contour_negative_id :
  add_contour [[5; 7; 8]]%Z [[-1; 0; 0]]%Z = Some [[5; 7; 7]]%Z.
Proof. reflexivity. Qed.

Lemma add_contour_keeps_background_witness :
  same_shape [[5; 0; 7]; [4; 7; 7]]%Z [[1; 1; 0]; [0; 2; 2]]%Z
  ∧ nonneg_mask [[1; 1; 0]; [0; 2; 2]]%Z
  ∧ ∃ R, add_contour [[5; 0; 7]; [4; 7; 7]]%Z [[1; 1; 0]; [0; 2; 2]]%Z = Some R
         ∧ ∀ r c, get_at [[1; 1; 0]; [0; 2; 2]]%Z (r, c) = Some 0%Z →
                  get_at R (r, c) = get_at [[5; 0; 7]; [4; 7; 7]]%Z (r, c).
Proof.
  assert (Hnn : nonneg_mask [[1; 1; 0]; [0; 2; 2]]%Z).
  { unfold nonneg_mask. repeat constructor; lia. }
  split; [reflexivity|]. split; [exact Hnn|].
  exact (add_contour_keeps_background [[5; 0; 7]; [4; 7; 7]]%Z
           [[1; 1; 0]; [0; 2; 2]]%Z eq_refl Hnn).
Defined.

(** ** compute_new_labels_mask *)

Lemma py_in_spec x (l : list Z) : py_in x l = true ↔ x ∈ l.
Proof.
  unfold py_in. rewrite existsb_exists. split.
  - intros (y & Hy & ->%Z.eqb_eq). by apply list_elem_of_In.
  - intros H. exists x. split; [by apply list_elem_of_In | apply Z.eqb_refl].
Qed.

Lemma get_at_zeros_like (m : grid) p :
  is_Some (get_at m p) → get_at (np_zeros_like m) p = Some 0%Z.
Proof.
  destruct p as [r c]. unfold get_at, np_zeros_like. simpl.
  change (map ?f ?l) with (f <$> l). rewrite list_lookup_fmap.
  destruct (m !! r) as [row|]; simpl; [|by intros [? ?]].
  change (map ?f ?l) with (f <$> l). rewrite list_lookup_fmap.
  destruct (row !! c); simpl; [done|by intros [? ?]].
Qed.

Lemma foldM_Some_elem {A B : Type} (f : A → B → option A) (a r : A)
  (l : list B) b :
  foldM f a l = Some r → b ∈ l → ∃ a' a'', f a' b = Some a''.
Proof.
  revert a. induction l as [|b0 l IH]; intros a Hf Hb.
  - by apply not_elem_of_nil in Hb.
  - simpl in Hf. destruct (f a b0) as [a1|] eqn:E; simpl in Hf; [|done].
    apply elem_of_cons in Hb as [->|Hb]; eauto.
Qed.

(** A loop body that does nothing for [v] leaves the pixels of [v]. *)
Lemma loop_frame_skip I step ids v :
  writes_only I step ids →
  (∀ N N', step N v = Some N' → N' = N) →
  ∀ N R, same_shape I N → foldM step N ids = Some R →
    ∀ p, get_at I p = Some v → get_at R p = get_at N p.
Proof.
  induction ids as [|a ids IH]; intros Hw Hskip N R Hs Hf p Hp; simpl in Hf.
  - by injection Hf as <-.
  - destruct (step N a) as [N1|] eqn:Hstep; simpl in Hf; [|done].
    destruct (writes_only_step _ _ _ _ _ _ Hw Hs Hstep) as [Hs1 Hfr1].
    rewrite (IH (writes_only_cons _ _ _ _ Hw) Hskip N1 R Hs1 Hf p Hp).
    destruct (decide (v = a)) as [->|Hne].
    + by rewrite (Hskip N N1 Hstep).
    + destruct (Hfr1 v Hne) as [_ G]. by apply G.
Qed.

(** The loop body: skip the background, else write [labels_value]. *)
Lemma labels_step_eq (L I O : grid) known N id :
  compute_new_labels_mask_step L I O known N id
  = if (id =? 0)%Z then Some N
    else c ← labels_value L I O known id; put_at N (np_where_eq I id) c.
Proof.
  unfold compute_new_labels_mask_step, labels_value.
  destruct (id =? 0)%Z; [done|].
  destruct (negb (py_in id known)); [done|].
  destruct (take_at L (np_where_eq I id)) as [sel|]; simpl; [|done].
  destruct (bool_decide _); [done|].
  by destruct (take_at L (np_where_eq O id)).
Qed.

Lemma labels_writes_only (L I O : grid) known ids :
  writes_only I (compute_new_labels_mask_step L I O known) ids.
Proof.
  intros id N N' _ Hs. rewrite labels_step_eq.
  destruct (id =? 0)%Z; [intros [= <-]; by left|].
  destruct (labels_value L I O known id) as [c|]; simpl; [|done].
  rewrite (put_at_where id c I N Hs). intros [= <-]. eauto.
Qed.

(** What the value written for an object is, branch by branch. *)
Lemma labels_value_cases (L I O : grid) known id c :
  same_shape I L → id ∈ flatten I →
  labels_value L I O known id = Some c →
  (id ∉ known → c = id)
  ∧ (id ∈ known →
     ∃ sel, take_at L (np_where_eq I id) = Some sel
       ∧ (∀ v, (∀ x, x ∈ sel → x = v) → c = v)
       ∧ ((∃ x y, x ∈ sel ∧ y ∈ sel ∧ x ≠ y) →
          ∃ orig, take_at L (np_where_eq O id) = Some orig
                  ∧ majority orig = Some c)).
Proof.
  intros Hs Hocc. unfold labels_value.
  destruct (py_in id known) eqn:Hin; simpl.
  - apply py_in_spec in Hin. rewrite (take_at_where id I L Hs). simpl.
    pose proof (select_nonempty id I L Hs Hocc) as Hne. intros Hc.
    split; [done|]. intros _. exists (select id I L). split; [done|].
    destruct (bool_decide_reflect (length (np_unique (select id I L)) = 1))
      as [Hlen|Hlen].
    + destruct (np_unique (select id I L)) as [|w [|? ?]] eqn:E; try done.
      injection Hc as ->. split.
      * intros v Hv. apply Hv, elem_of_np_unique. rewrite E. by left.
      * intros (x & y & Hx & Hy & Hxy).
        pose proof (np_unique_singleton_inv _ _ E x Hx).
        pose proof (np_unique_singleton_inv _ _ E y Hy). congruence.
    + split.
      * intros v Hv. by rewrite (np_unique_singleton _ v Hne Hv) in Hlen.
      * intros _. destruct (take_at L (np_where_eq O id)) as [orig|];
          simpl in Hc; [eauto|done].
  - intros [= <-]. split; [done|]. intros Hk%py_in_spec. congruence.
Qed.

(** The value of the result at a pixel of a non-background object. *)
Lemma labels_pixel (L I O R : grid) known p id :
  same_shape I L → compute_new_labels_mask L I O known = Some R →
  get_at I p = Some id → id ≠ 0%Z →
  ∃ c, labels_value L I O known id = Some c ∧ get_at R p = Some c.
Proof.
  intros Hs HR Hp Hne. unfold compute_new_labels_mask in HR.
  assert (Hid : id ∈ np_unique (flatten I)).
  { apply elem_of_np_unique. by eapply get_at_flatten. }
  assert (Hz : (id =? 0)%Z = false) by by apply Z.eqb_neq.
  destruct (labels_value L I O known id) as [c|] eqn:Hc.
  - exists c. split; [done|].
    assert (Hs0 : same_shape I (np_zeros_like L)).
    { eapply same_shape_trans; [exact Hs|].
      apply same_shape_sym, same_shape_zeros_like. }
    apply (loop_written I _ id c _ (labels_writes_only L I O known _)
             (sorted_NoDup _ (np_unique_sorted _)) Hid _ R Hs0); [|done|done].
    intros N' N'' Hs' _. rewrite labels_step_eq, Hz, Hc. simpl.
    rewrite (put_at_where id c I N' Hs'). by intros [= <-].
  - destruct (foldM_Some_elem _ _ _ _ id HR Hid) as (N' & N'' & Hstep).
    by rewrite labels_step_eq, Hz, Hc in Hstep.
Qed.

Lemma labels_background (L I O R : grid) known p :
  same_shape I L → compute_new_labels_mask L I O known = Some R →
  get_at I p = Some 0%Z → get_at R p = Some 0%Z.
Proof.
  intros Hs HR Hp. unfold compute_new_labels_mask in HR.
  assert (Hs0 : same_shape I (np_zeros_like L)).
  { eapply same_shape_trans; [exact Hs|].
    apply same_shape_sym, same_shape_zeros_like. }
  rewrite (loop_frame_skip I _ _ 0%Z (labels_writes_only L I O known _)
             (λ N N' H, eq_sym (Some_inj _ _ H)) _ R Hs0 HR p Hp).
  apply get_at_zeros_like. apply (get_at_same_shape I L p Hs). by eexists.
Qed.

(** When the known ids are ids of the original instance mask, no step of
    the loop raises. *)
Lemma labels_total (L I O : grid) known :
  same_shape I L → same_shape O L → (∀ id, id ∈ known → id ∈ flatten O) →
  ∃ R, compute_new_labels_mask L I O known = Some R ∧ same_shape R L.
Proof.
  intros Hs HsO Hknown. unfold compute_new_labels_mask.
  destruct (foldM_is_Some (λ N, same_shape N L)
              (compute_new_labels_mask_step L I O known)
              (np_zeros_like L) (np_unique (flatten I)))
    as (R & HR & HsR); [apply same_shape_zeros_like| |eauto].
  intros N id Hid HN. rewrite elem_of_np_unique in Hid.
  assert (HsN : same_shape I N).
  { eapply same_shape_trans; [exact Hs|]. by apply same_shape_sym. }
  rewrite labels_step_eq. destruct (id =? 0)%Z; [eauto|].
  assert (Hv : is_Some (labels_value L I O known id)).
  { unfold labels_value. destruct (py_in id known) eqn:Hin; simpl; [|eauto].
    apply py_in_spec in Hin. rewrite (take_at_where id I L Hs). simpl.
    pose proof (select_nonempty id I L Hs Hid) as Hne.
    destruct (bool_decide_reflect (length (np_unique (select id I L)) = 1))
      as [Hlen|Hlen].
    - apply lookup_lt_is_Some. lia.
    - rewrite (take_at_where id O L HsO). simpl. apply majority_is_Some.
      apply select_nonempty; [done|]. by apply Hknown. }
  destruct Hv as [c ->]. simpl. rewrite (put_at_where id c I N HsN).
  eexists. split; [done|].
  eapply same_shape_trans; [apply same_shape_assign|done].
Qed.

(** [C5] [compute_new_labels_mask], called on masks of one shape with
    [old_instances] a list of ids of the original instance mask, returns a
    mask that is 0 at the background pixels of the edited instance mask,
    holds the instance id at the pixels of an id that is not in
    [old_instances], holds the one class value of the prior class mask over
    the edited pixels of an id of [old_instances] when there is only one,
    and else holds the vote over the class values at the id's pixels in the
    original instance mask: a value of highest pixel count there, the least
    one among those tied for it.  On the example of the object grown by one
    pixel the three pixels of object 1 receive class 4. *)
Theorem compute_new_labels_mask_spec :
  (∀ (labels_mask instance_mask original_instance_mask : grid)
     (old_instances : list Z),
     same_shape instance_mask labels_mask →
     same_shape original_instance_mask labels_mask →
     (∀ id, id ∈ old_instances → id ∈ flatten original_instance_mask) →
     ∃ R, compute_new_labels_mask labels_mask instance_mask
            original_instance_mask old_instances = Some R
       ∧ same_shape R labels_mask
       ∧ ∀ r c id, get_at instance_mask (r, c) = Some id →
           (id = 0%Z → get_at R (r, c) = Some 0%Z)
           ∧ (id ≠ 0%Z → id ∉ old_instances → get_at R (r, c) = Some id)
           ∧ (id ≠ 0%Z → id ∈ old_instances →
              ∃ sel,
                take_at labels_mask (np_where_eq instance_mask id) = Some sel
                ∧ (∀ v, (∀ x, x ∈ sel → x = v) → get_at R (r, c) = Some v)
                ∧ ((∃ x y, x ∈ sel ∧ y ∈ sel ∧ x ≠ y) →
                   ∃ orig v,
                     take_at labels_mask
                       (np_where_eq original_instance_mask id) = Some orig
                     ∧ majority orig = Some v
                     ∧ lowest_majority v orig
                     ∧ get_at R (r, c) = Some v)))
  ∧ compute_new_labels_mask [[4; 4]; [0; 0]]%Z [[1; 1]; [1; 0]]%Z
      [[1; 1]; [0; 0]]%Z [1%Z]
    = Some [[4; 4]; [4; 0]]%Z.
Proof.
  split; [|reflexivity].
  intros L I O known Hs HsO Hknown.
  destruct (labels_total L I O known Hs HsO Hknown) as (R & HR & HsR).
  exists R. split; [done|]. split; [done|]. intros r c id Hp.
  split; [intros ->; by apply (labels_background L I O R known (r, c))|].
  assert (Hocc : id ∈ flatten I) by by eapply get_at_flatten.
  split.
  - intros Hne Hnk.
    destruct (labels_pixel L I O R known (r, c) id Hs HR Hp Hne)
      as (v & Hv & ->).
    destruct (labels_value_cases L I O known id v Hs Hocc Hv) as [H1 _].
    by rewrite (H1 Hnk).
  - intros Hne Hk.
    destruct (labels_pixel L I O R known (r, c) id Hs HR Hp Hne)
      as (v & Hv & HRp).
    destruct (labels_value_cases L I O known id v Hs Hocc Hv) as [_ H2].
    destruct (H2 Hk) as (sel & Hsel & Hone & Hmany).
    exists sel. split; [done|]. split.
    + intros w Hw. by rewrite HRp, (Hone w Hw).
    + intros Hxy. destruct (Hmany Hxy) as (orig & Horig & Hmaj).
      exists orig, v. split; [done|]. split; [done|].
      split; [by apply majority_lowest|done].
Qed.

Lemma compute_new_labels_mask_spec_witness :
  same_shape [[1; 1; 1; 1]; [0; 0; 2; 2]]%Z [[3; 9; 9; 0]; [0; 0; 0; 0]]%Z
  ∧ same_shape [[1; 1; 1; 0]; [0; 0; 0; 0]]%Z [[3; 9; 9; 0]; [0; 0; 0; 0]]%Z
  ∧ (∀ id, id ∈ [1%Z] → id ∈ flatten [[1; 1; 1; 0]; [0; 0; 0; 0]]%Z)
  ∧ ∃ R orig v,
      compute_new_labels_mask [[3; 9; 9; 0]; [0; 0; 0; 0]]%Z
        [[1; 1; 1; 1]; [0; 0; 2; 2]]%Z [[1; 1; 1; 0]; [0; 0; 0; 0]]%Z [1%Z]
      = Some R
      ∧ R = [[9; 9; 9; 9]; [0; 0; 2; 2]]%Z
      ∧ orig = [3; 9; 9]%Z
      ∧ lowest_majority v orig
      ∧ v = 9%Z
      ∧ get_at R (0, 3) = Some v.
Proof.
  assert (Hk : ∀ id, id ∈ [1%Z]
                 → id ∈ flatten [[1; 1; 1; 0]; [0; 0; 0; 0]]%Z).
  { intros id Hid. apply list_elem_of_In in Hid. apply list_elem_of_In.
    simpl in *. intuition. }
  split; [reflexivity|]. split; [reflexivity|]. split; [exact Hk|].
  destruct (proj1 compute_new_labels_mask_spec [[3; 9; 9; 0]; [0; 0; 0; 0]]%Z
              [[1; 1; 1; 1]; [0; 0; 2; 2]]%Z [[1; 1; 1; 0]; [0; 0; 0; 0]]%Z
              [1%Z] eq_refl eq_refl Hk) as (R & HR & _ & Hpix).
  destruct (Hpix 0 3 1%Z eq_refl) as (_ & _ & Hknown).
  destruct Hknown as (sel & Hsel & _ & Hmany);
    [discriminate | apply list_elem_of_In; simpl; tauto |].
  vm_compute in Hsel. injection Hsel as <-.
  destruct Hmany as (orig & v & Horig & Hmaj & Hlow & Hv).
  { exists 3%Z, 9%Z. split; [apply list_elem_of_In; simpl; tauto|].
    split; [apply list_elem_of_In; simpl; tauto|discriminate]. }
  vm_compute in Horig. injection Horig as <-.
  exists R, [3; 9; 9]%Z, v. split; [exact HR|].
  split; [vm_compute in HR; by injection HR|].
  split; [reflexivity|]. split; [exact Hlow|].
  split; [vm_compute in Hmaj; by injection Hmaj|exact Hv].
Defined.

(** [C6] The vote taken in [add_contour] and in the fallback branch of
    [compute_new_labels_mask] returns a value of highest pixel count, and
    when several values are tied for the highest count it returns the
    least of them. *)
Theorem majority_vote_tie_break :
  (∀ xs v, majority xs = Some v → lowest_majority v xs)
  ∧ (∀ C I : grid, same_shape C I →
       ∃ R, add_contour C I = Some R
         ∧ ∀ id r c, id ∈ get_unique_objects I →
             get_at I (r, c) = Some id →
             ∃ sel v, take_at C (np_where_eq I id) = Some sel
                      ∧ get_at R (r, c) = Some v
                      ∧ lowest_majority v sel)
  ∧ (∀ (L I O R : grid) (known : list Z) id r c,
       same_shape I L →
       compute_new_labels_mask L I O known = Some R →
       get_at I (r, c) = Some id → id ≠ 0%Z → id ∈ known →
       ∀ sel, take_at L (np_where_eq I id) = Some sel →
         (∃ x y, x ∈ sel ∧ y ∈ sel ∧ x ≠ y) →
         ∃ orig v, take_at L (np_where_eq O id) = Some orig
                   ∧ get_at R (r, c) = Some v
                   ∧ lowest_majority v orig).
Proof.
  split; [exact majority_lowest|]. split.
  - intros C I Hs. destruct (add_contour_total C I Hs) as (R & HR & HsR).
    exists R. split; [done|]. intros id r c Hid Hp.
    destruct (add_contour_object C I R id Hs HR Hid) as (v & Hv & _ & _ & G).
    exists (select id I C), v. split; [|split].
    + by apply take_at_where, same_shape_sym.
    + by apply G.
    + by apply majority_lowest.
  - intros L I O R known id r c Hs HR Hp Hne Hk sel Hsel Hxy.
    destruct (labels_pixel L I O R known (r, c) id Hs HR Hp Hne)
      as (v & Hv & HRp).
    assert (Hocc : id ∈ flatten I) by by eapply get_at_flatten.
    destruct (labels_value_cases L I O known id v Hs Hocc Hv) as [_ H2].
    destruct (H2 Hk) as (sel' & Hsel' & _ & Hmany).
    rewrite Hsel in Hsel'. injection Hsel' as <-.
    destruct (Hmany Hxy) as (orig & Horig & Hmaj).
    exists orig, v. split; [done|]. split; [done|]. by apply majority_lowest.
Qed.

Lemma majority_vote_tie_break_witness :
  majority [9; 3; 9; 3]%Z = Some 3%Z
  ∧ lowest_majority 3 [9; 3; 9; 3]%Z
  ∧ same_shape [[9; 3; 9; 3; 0]]%Z [[1; 1; 1; 1; 0]]%Z
  ∧ ∃ R, add_contour [[9; 3; 9; 3; 0]]%Z [[1; 1; 1; 1; 0]]%Z = Some R
         ∧ get_at R (0, 0) = Some 3%Z.
Proof.
  split; [reflexivity|].
  split; [apply (proj1 majority_vote_tie_break [9; 3; 9; 3]%Z 3%Z eq_refl)|].
  split; [reflexivity|].
  destruct (proj1 (proj2 majority_vote_tie_break) [[9; 3; 9; 3; 0]]%Z
              [[1; 1; 1; 1; 0]]%Z eq_refl) as (R & HR & _).
  exists R. split; [exact HR|].
  vm_compute in HR. injection HR as <-. reflexivity.
Defined.

(** ** assert_consistent_labels *)

Lemma sorted_snoc (l : list Z) x :
  StronglySorted Z.lt l → (∀ y, y ∈ l → (y < x)%Z) →
  StronglySorted Z.lt (l ++ [x]).
Proof.
  induction 1 as [|a l Hs IH Ha]; intros Hlt; simpl.
  - repeat constructor.
  - constructor.
    + apply IH. intros y Hy. apply Hlt. by right.
    + apply Forall_app. split; [done|]. repeat constructor. apply Hlt.
      by left.
Qed.

Section ValidatorFacts.

Variable label : list (list bool) → grid.

Lemma assert_consistent_labels_loop (I C : grid) (ids : list Z) :
  ∀ a m fa fm st',
    StronglySorted Z.lt ids →
    report_consistent (a, m, fa, fm) →
    (∀ x id, x ∈ fa ++ fm → id ∈ ids → (x < id)%Z) →
    foldM (assert_consistent_labels_step label I C) (a, m, fa, fm) ids
    = Some st' →
    report_consistent st'.
Proof.
  induction ids as [|id ids IH]; intros a m fa fm st' Hs Hc Hlt Hf.
  - simpl in Hf. by injection Hf as <-.
  - apply StronglySorted_inv in Hs as [Hs Hid].
    destruct Hc as (Ha & Hm & Hfa & Hfm).
    assert (Hfa' : StronglySorted Z.lt (fa ++ [id])).
    { apply sorted_snoc; [done|]. intros y Hy. apply Hlt; [|by left].
      apply elem_of_app. by left. }
    assert (Hfm' : StronglySorted Z.lt (fm ++ [id])).
    { apply sorted_snoc; [done|]. intros y Hy. apply Hlt; [|by left].
      apply elem_of_app. by right. }
    assert (Hnew : ∀ (l1 l2 : list Z),
               (∀ x, x ∈ l1 ++ l2 → x = id ∨ x ∈ fa ++ fm) →
               ∀ x id', x ∈ l1 ++ l2 → id' ∈ ids → (x < id')%Z).
    { intros l1 l2 H x id' Hx Hid'. destruct (H x Hx) as [->|Hx'].
      - by eapply Forall_forall in Hid.
      - apply Hlt; [done|by right]. }
    assert (Hsnoc : ∀ l : list Z, l ++ [id] ≠ []) by (by intros []).
    simpl in Hf. unfold assert_consistent_labels_step at 1 in Hf.
    destruct (2 <? length _);
      (destruct (take_at C (np_where_eq I id)) as [sel|]; simpl in Hf;
       [|done]);
      destruct (1 <? length (np_unique sel));
      (revert Hf; apply IH; [exact Hs| |apply Hnew]);
      first
        [ unfold report_consistent; split_and!;
          first [ done | tauto | split; [intros _; apply Hsnoc | done] ]
        | intros x; rewrite !elem_of_app, ?elem_of_cons, ?elem_of_nil;
          tauto ].
Qed.

Lemma assert_consistent_labels_total (I C : grid) :
  same_shape I C → is_Some (assert_consistent_labels label (I, C)).
Proof.
  intros Hs. unfold assert_consistent_labels.
  destruct (foldM_is_Some (λ _, True)
              (assert_consistent_labels_step label I C)
              (false, false, [], []) (get_unique_objects I) Logic.I)
    as (st & -> & _); [|by eexists].
  intros [[[a m] fa] fm] id _ _. unfold assert_consistent_labels_step.
  rewrite (take_at_where id I C Hs). simpl.
  destruct (2 <? _), (1 <? _); eauto.
Qed.

(** [C2], evaluated: on the instance channel [[1,1],[1,1]] and the class
    channel [[3,3],[3,9]] the validator visits no object and returns
    [(False, False, [], [])], whatever the connected-component labelling;
    object 1 holds the class values 3 and 9. *)
Theorem assert_consistent_labels_misses_mismatch :
  assert_consistent_labels label
    ([[1; 1]; [1; 1]]%Z, [[3; 3]; [3; 9]]%Z)
  = Some (false, false, [], []).
Proof. reflexivity. Qed.

(** [C10] In the tuple [assert_consistent_labels] returns, each flag is
    [True] exactly when its list of faulty ids is not empty, and each list
    is strictly ascending, so holds an id at most once; on channels of one
    shape the function returns. *)
Theorem assert_consistent_labels_report (instance_mask class_mask : grid) :
  (same_shape instance_mask class_mask →
   is_Some (assert_consistent_labels label (instance_mask, class_mask)))
  ∧ ∀ user_annot_error mask_mismatch_error
      faulty_ids_annot faulty_ids_missmatch,
      assert_consistent_labels label (instance_mask, class_mask)
      = Some (user_annot_error, mask_mismatch_error,
              faulty_ids_annot, faulty_ids_missmatch) →
      (user_annot_error = true ↔ faulty_ids_annot ≠ [])
      ∧ (mask_mismatch_error = true ↔ faulty_ids_missmatch ≠ [])
      ∧ StronglySorted Z.lt faulty_ids_annot
      ∧ NoDup faulty_ids_annot
      ∧ StronglySorted Z.lt faulty_ids_missmatch
      ∧ NoDup faulty_ids_missmatch.
Proof.
  split; [apply assert_consistent_labels_total|].
  intros a m fa fm Hf. unfold assert_consistent_labels in Hf.
  assert (Hc : report_consistent (a, m, fa, fm)).
  { eapply assert_consistent_labels_loop;
      [apply get_unique_objects_sorted| | |exact Hf].
    - repeat split; try done; constructor.
    - intros x id Hx. by apply not_elem_of_nil in Hx. }
  destruct Hc as (Ha & Hm & Hfa & Hfm).
  repeat split; try tauto; by apply sorted_NoDup.
Qed.

End ValidatorFacts.

(** The example runs with a labelling that reports no component. *)
Lemma assert_consistent_labels_report_witness :
  same_shape [[1; 1; 0]; [0; 2; 2]]%Z [[5; 6; 0]; [0; 7; 7]]%Z
  ∧ assert_consistent_labels (λ _, [])
      ([[1; 1; 0]; [0; 2; 2]]%Z, [[5; 6; 0]; [0; 7; 7]]%Z)
    = Some (false, true, [], [1%Z])
  ∧ (true = true ↔ [1%Z] ≠ []).
Proof.
  split; [reflexivity|]. split; [reflexivity|].
  apply (proj2 (assert_consistent_labels_report (λ _, [])
                  [[1; 1; 0]; [0; 2; 2]]%Z [[5; 6; 0]; [0; 7; 7]]%Z)
           false true [] [1%Z] eq_refl).
Defined.

(** ** get_contours *)

Lemma set_at_same_shape (m m' : grid) p v :
  set_at m p v = Some m' → same_shape m' m.
Proof.
  destruct p as [r c]. unfold set_at, same_shape. simpl.
  destruct (m !! r) as [row|] eqn:Hr; simpl; [|done].
  destruct (row !! c); simpl; [|done]. intros [= <-].
  rewrite list_fmap_insert, length_insert.
  apply list_insert_id. by rewrite list_lookup_fmap, Hr.
Qed.

Lemma put_at_same_shape (ps : list index) v :
  ∀ m m' : grid, put_at m ps v = Some m' → same_shape m' m.
Proof.
  induction ps as [|p ps IH]; intros m m'; simpl.
  - intros [= <-]. apply same_shape_refl.
  - destruct (set_at m p v) as [m1|] eqn:E; simpl; [|done]. intros H.
    eapply same_shape_trans; [by apply IH|by eapply set_at_same_shape].
Qed.

Section ContoursFacts.

Variable contour : Type.
Variable level : Type.
Variable find_contours : grid → option level → option (list contour).
Variable contour_len : contour → nat.
Variable astype_int : contour → contour.
Variable polygon_perimeter : contour → nat * nat → option (list index).

Local Abbreviation draw :=
  (draw_contour contour level find_contours contour_len astype_int
     polygon_perimeter).
Local Abbreviation step :=
  (get_contours_step contour level find_contours contour_len astype_int
     polygon_perimeter).
Local Abbreviation loop :=
  (get_contours_loop contour level find_contours contour_len astype_int
     polygon_perimeter).

Lemma draw_contour_same_shape (I : grid) lvl (cm cm' : grid) id :
  draw I lvl cm id = Some cm' → same_shape cm' cm.
Proof.
  unfold draw_contour. destruct (find_contours _ _); simpl; [|done].
  destruct (select_contour _ _ _ _); simpl; [|done].
  destruct (polygon_perimeter _ _); simpl; [|done].
  apply put_at_same_shape.
Qed.

Lemma get_contours_step_same_shape (I : grid) lvl st id :
  same_shape st.1 I → same_shape (step I lvl st id).1 I.
Proof.
  intros Hs. unfold get_contours_step.
  destruct (draw I lvl st.1 id) as [cm|] eqn:E; simpl; [|done].
  eapply same_shape_trans; [by eapply draw_contour_same_shape|done].
Qed.

Lemma get_contours_loop_log (I : grid) lvl ids :
  ∀ st x, x ∈ st.2 → x ∈ (loop I lvl st ids).2.
Proof.
  unfold get_contours_loop.
  induction ids as [|id ids IH]; intros st x Hx; simpl; [done|].
  apply IH. unfold get_contours_step. destruct (draw I lvl st.1 id); simpl;
    [done|]. apply elem_of_app. by left.
Qed.

Section FailedObject.

Variable I : grid.
Variable lvl : option level.
Variable k : Z.
Hypothesis Hfail : ∀ cm, same_shape cm I → draw I lvl cm k = None.

Lemma get_contours_loop_skip (ids : list Z) :
  ∀ cm log1 log2, same_shape cm I →
    (loop I lvl (cm, log1) ids).1
    = (loop I lvl (cm, log2) (filter (λ id, id ≠ k) ids)).1.
Proof.
  unfold get_contours_loop.
  induction ids as [|id ids IH]; intros cm log1 log2 Hs; [done|].
  destruct (decide (id = k)) as [->|Hne].
  - rewrite filter_cons_False by (by intros ?). simpl.
    unfold get_contours_step at 2. simpl. rewrite (Hfail cm Hs). by apply IH.
  - rewrite filter_cons_True by done. simpl.
    unfold get_contours_step at 2 4. simpl.
    destruct (draw I lvl cm id) as [cm'|] eqn:E; simpl; [|by apply IH].
    apply IH. eapply same_shape_trans; [|exact Hs].
    by eapply draw_contour_same_shape.
Qed.

Lemma get_contours_loop_failed (ids : list Z) :
  ∀ st, same_shape st.1 I → k ∈ ids → k ∈ (loop I lvl st ids).2.
Proof.
  induction ids as [|id ids IH]; intros st Hs Hk.
  - by apply not_elem_of_nil in Hk.
  - unfold get_contours_loop. simpl.
    pose proof (get_contours_step_same_shape I lvl st id Hs) as Hs'.
    apply elem_of_cons in Hk as [<-|Hk]; [|by apply IH].
    apply get_contours_loop_log. unfold get_contours_step.
    rewrite (Hfail st.1 Hs). simpl. apply elem_of_app. right. by left.
Qed.

End FailedObject.

(** [C8] [get_contours] returns a contour mask whatever the tracing does.
    When the tracing of object [k] fails, the object is skipped: its id is
    among the ids printed, and the contour mask returned is the one the loop
    builds from the other objects alone, so every pixel written for another
    object is in it as if [k] were not in the mask. *)
Theorem get_contours_skips_failed_object (I : grid) (lvl : option level)
  (k : Z) :
  (∀ cm, same_shape cm I → draw I lvl cm k = None) →
  let instance_ids := get_unique_objects I in
  let result :=
    get_contours contour level find_contours contour_len astype_int
      polygon_perimeter I lvl in
  result.1
  = (loop I lvl (np_zeros_like I, [])
       (filter (λ id, id ≠ k) instance_ids)).1
  ∧ same_shape result.1 I
  ∧ (k ∈ instance_ids → k ∈ result.2).
Proof.
  intros Hfail. simpl. unfold get_contours. split; [|split].
  - apply get_contours_loop_skip; [done|apply same_shape_zeros_like].
  - assert (H : ∀ ids st, same_shape st.1 I →
                  same_shape (loop I lvl st ids).1 I).
    { unfold get_contours_loop. induction ids as [|id ids IH]; intros st Hs;
        [done|]. simpl. by apply IH, get_contours_step_same_shape. }
    apply H, same_shape_zeros_like.
  - intros Hk. apply get_contours_loop_failed; [done| |done].
    apply same_shape_zeros_like.
Qed.

End ContoursFacts.

Lemma get_contours_skips_failed_object_witness :
  px_get_contours [[1; 1; 0]; [0; 0; 2]]%Z
  = ([[1; 1; 0]; [0; 0; 0]]%Z, [2%Z])
  ∧ (px_get_contours [[1; 1; 0]; [0; 0; 2]]%Z).1
    = (px_get_contours [[1; 1; 0]; [0; 0; 0]]%Z).1
  ∧ 2%Z ∈ (px_get_contours [[1; 1; 0]; [0; 0; 2]]%Z).2.
Proof.
  split; [reflexivity|].
  destruct (get_contours_skips_failed_object (list index) unit
              px_find_contours length id px_polygon_perimeter
              [[1; 1; 0]; [0; 0; 2]]%Z None 2%Z) as (H1 & _ & H2).
  { intros cm _. reflexivity. }
  split; [exact H1|]. apply H2. right. left.
Defined.

(** * Further properties of the mask operations *)

(** ** Pixels and selections *)

Lemma elem_of_select_row v (irow lrow : list Z) x :
  x ∈ select_row v irow lrow
  ↔ ∃ c, irow !! c = Some v ∧ lrow !! c = Some x.
Proof.
  revert lrow. induction irow as [|i irow IH]; intros [|y lrow]; simpl.
  - split; [by intros ?%not_elem_of_nil | by intros (c & ? & ?)].
  - split; [by intros ?%not_elem_of_nil | by intros (c & ? & ?)].
  - split; [by intros ?%not_elem_of_nil | by intros ([|c] & ? & ?)].
  - destruct (Z.eqb_spec i v) as [->|Hne].
    + rewrite elem_of_cons, IH. split.
      * intros [->|(c & ? & ?)]; [by exists 0 | by exists (S c)].
      * intros ([|c] & Hi & Hx); simpl in *; [left; congruence|right; eauto].
    + rewrite IH. split.
      * intros (c & ? & ?). by exists (S c).
      * intros ([|c] & Hi & Hx); simpl in *; [congruence|eauto].
Qed.

(** The values read at [np.where(I == v)] are the values at the pixels of
    object [v]. *)
Lemma elem_of_select v (I L : grid) x :
  x ∈ select v I L ↔ ∃ p, get_at I p = Some v ∧ get_at L p = Some x.
Proof.
  revert L. induction I as [|irow I IH]; intros [|lrow L]; simpl.
  - split; [by intros ?%not_elem_of_nil | by intros ([[|?] ?] & ? & ?)].
  - split; [by intros ?%not_elem_of_nil | by intros ([[|?] ?] & ? & ?)].
  - split; [by intros ?%not_elem_of_nil | by intros ([[|?] ?] & ? & ?)].
  - rewrite elem_of_app, elem_of_select_row, IH. split.
    + intros [(c & ? & ?)|([r c] & ? & ?)];
        [by exists (0, c) | by exists (S r, c)].
    + intros ([[|r] c] & Hi & Hx); [left; by exists c|].
      right. by exists (r, c).
Qed.

Lemma select_uniform v (I L : grid) c :
  Forall (eq c) (select v I L)
  ↔ ∀ p x, get_at I p = Some v → get_at L p = Some x → x = c.
Proof.
  rewrite Forall_forall. split.
  - intros H p x Hi Hx. symmetry. apply H, elem_of_select. eauto.
  - intros H x (p & Hi & Hx)%elem_of_select. symmetry. eauto.
Qed.

(** [get_at] on masks of one shape is defined at the same pixels. *)
Lemma get_at_shape (A B : grid) p x :
  same_shape A B → get_at A p = Some x → ∃ y, get_at B p = Some y.
Proof.
  intros Hs Hx. destruct (get_at_same_shape A B p Hs) as [y Hy]; eauto.
Qed.

(** Masks of one shape that agree at every pixel are equal. *)
Lemma grid_ext (A B : grid) :
  same_shape A B → (∀ p, get_at A p = get_at B p) → A = B.
Proof.
  revert B. induction A as [|a A IH]; intros [|b B] Hs Hp; try done.
  apply same_shape_cons in Hs as [Hl Hs]. f_equal.
  - apply list_eq. intros c. apply (Hp (0, c)).
  - apply IH; [done|]. intros [r c]. apply (Hp (S r, c)).
Qed.

(** ** get_unique_objects *)

(** [X1] [get_unique_objects] returns, in strictly ascending order, the
    distinct values of the mask except the least one: a value is listed
    exactly when it occurs in the mask and some smaller value occurs too. *)
Theorem get_unique_objects_all_but_least (m : grid) :
  StronglySorted Z.lt (get_unique_objects m)
  ∧ ∀ x, x ∈ get_unique_objects m
         ↔ x ∈ flatten m ∧ ∃ y, y ∈ flatten m ∧ (y < x)%Z.
Proof.
  split; [apply get_unique_objects_sorted|]. intros x. split.
  - intros Hx. split; [by apply get_unique_objects_occur|].
    by apply get_unique_objects_above.
  - intros (Hx & y & Hy & Hlt). unfold get_unique_objects.
    pose proof (np_unique_sorted (flatten m)) as Hs.
    rewrite <- elem_of_np_unique in Hx, Hy.
    destruct (np_unique (flatten m)) as [|a l]; simpl;
      [by apply not_elem_of_nil in Hx|].
    rewrite drop_0. apply StronglySorted_inv in Hs as [_ Hs].
    apply elem_of_cons in Hx as [->|Hx]; [|done].
    apply elem_of_cons in Hy as [->|Hy]; [lia|].
    eapply Forall_forall in Hs; [|exact Hy]. lia.
Qed.

(** [X2] On a mask that holds a background pixel and no negative value
    [get_unique_objects] lists the object ids: the distinct non-zero values
    of the mask, in strictly ascending order. *)
Theorem get_unique_objects_lists_ids (m : grid) :
  nonneg_mask m → 0%Z ∈ flatten m →
  StronglySorted Z.lt (get_unique_objects m)
  ∧ ∀ x, x ∈ get_unique_objects m ↔ x ∈ flatten m ∧ x ≠ 0%Z.
Proof.
  intros Hm H0. split; [apply get_unique_objects_sorted|]. intros x. split.
  - intros Hx. split; [by apply get_unique_objects_occur|]. intros ->.
    by apply (get_unique_objects_no_background m).
  - intros [Hx Hne]. unfold get_unique_objects.
    pose proof (np_unique_sorted (flatten m)) as Hs.
    rewrite <- elem_of_np_unique in Hx, H0.
    destruct (np_unique (flatten m)) as [|a l] eqn:Eu;
      [by apply not_elem_of_nil in Hx|].
    simpl. rewrite drop_0.
    apply elem_of_cons in Hx as [->|Hx]; [|done].
    apply elem_of_cons in H0 as [?|H0]; [done|].
    apply StronglySorted_inv in Hs as [_ Hs].
    eapply Forall_forall in Hs; [|exact H0].
    assert (0 <= a)%Z; [|lia].
    apply (nonneg_mask_flatten m); [done|].
    apply elem_of_np_unique. rewrite Eu. by left.
Qed.

Lemma get_unique_objects_lists_ids_witness :
  nonneg_mask [[3; 1; 0]; [0; 3; 3]]%Z
  ∧ 0%Z ∈ flatten [[3; 1; 0]; [0; 3; 3]]%Z
  ∧ get_unique_objects [[3; 1; 0]; [0; 3; 3]]%Z = [1; 3]%Z
  ∧ ∀ x, x ∈ get_unique_objects [[3; 1; 0]; [0; 3; 3]]%Z
         ↔ x ∈ flatten [[3; 1; 0]; [0; 3; 3]]%Z ∧ x ≠ 0%Z.
Proof.
  assert (Hnn : nonneg_mask [[3; 1; 0]; [0; 3; 3]]%Z).
  { unfold nonneg_mask. repeat constructor; lia. }
  assert (H0 : 0%Z ∈ flatten [[3; 1; 0]; [0; 3; 3]]%Z).
  { apply list_elem_of_In. simpl. tauto. }
  split; [exact Hnn|]. split; [exact H0|]. split; [reflexivity|].
  exact (proj2 (get_unique_objects_lists_ids _ Hnn H0)).
Defined.

(** ** add_contour *)

(** [X3] On masks of one shape [add_contour] returns a class mask of that
    shape in which the pixels of every object listed by
    [get_unique_objects] hold one and the same value, and every other pixel
    holds the value it had. *)
Theorem add_contour_postcondition (C I : grid) :
  same_shape C I →
  ∃ R, add_contour C I = Some R
       ∧ same_shape R C
       ∧ (∀ id p q, id ∈ get_unique_objects I →
            get_at I p = Some id → get_at I q = Some id →
            is_Some (get_at R p) ∧ get_at R p = get_at R q)
       ∧ (∀ x p, x ∉ get_unique_objects I → get_at I p = Some x →
            get_at R p = get_at C p).
Proof.
  intros Hs. destruct (add_contour_total C I Hs) as (R & HR & HsR).
  exists R. split; [done|]. split.
  { eapply same_shape_trans; [by apply same_shape_sym|].
    by apply same_shape_sym. }
  split.
  - intros id p q Hid Hp Hq.
    destruct (add_contour_object C I R id Hs HR Hid) as (v & _ & _ & _ & G).
    rewrite (G p Hp), (G q Hq). split; [by eexists|done].
  - intros x p Hx Hp.
    destruct (loop_frame I _ _ (add_contour_writes_only I _) C R
                (same_shape_sym _ _ Hs) HR) as [_ Hfr].
    destruct (Hfr x Hx) as [_ G]. by apply G.
Qed.

Lemma add_contour_postcondition_witness :
  same_shape [[5; 0; 7]; [0; 7; 7]]%Z [[1; 1; 0]; [0; 2; 2]]%Z
  ∧ add_contour [[5; 0; 7]; [0; 7; 7]]%Z [[1; 1; 0]; [0; 2; 2]]%Z
    = Some [[0; 0; 7]; [0; 7; 7]]%Z
  ∧ ∃ R, add_contour [[5; 0; 7]; [0; 7; 7]]%Z [[1; 1; 0]; [0; 2; 2]]%Z = Some R
         ∧ same_shape R [[5; 0; 7]; [0; 7; 7]]%Z.
Proof.
  split; [reflexivity|]. split; [reflexivity|].
  destruct (add_contour_postcondition [[5; 0; 7]; [0; 7; 7]]%Z
              [[1; 1; 0]; [0; 2; 2]]%Z eq_refl) as (R & HR & HsR & _).
  by exists R.
Defined.

(** [X4] [add_contour] introduces no class value: the value a pixel holds
    in the result is the value the class mask passed in holds at a pixel of
    the same object. *)
Theorem add_contour_no_new_class (C I R : grid) p x v :
  same_shape C I → add_contour C I = Some R →
  get_at I p = Some x → get_at R p = Some v →
  ∃ q, get_at I q = Some x ∧ get_at C q = Some v.
Proof.
  intros Hs HR Hp Hv.
  destruct (decide (x ∈ get_unique_objects I)) as [Hx|Hx].
  - destruct (add_contour_object C I R x Hs HR Hx) as (w & Hw & _ & _ & G).
    rewrite (G p Hp) in Hv. injection Hv as ->.
    apply majority_lowest in Hw as [Hin _]. by apply elem_of_select in Hin.
  - destruct (loop_frame I _ _ (add_contour_writes_only I _) C R
                (same_shape_sym _ _ Hs) HR) as [_ Hfr].
    destruct (Hfr x Hx) as [_ G]. exists p. by rewrite <- (G p Hp).
Qed.

Lemma add_contour_no_new_class_witness :
  ∃ q, get_at [[1; 1; 0]; [0; 2; 2]]%Z q = Some 1%Z
       ∧ get_at [[5; 0; 5]; [0; 7; 7]]%Z q = Some 0%Z.
Proof.
  apply (add_contour_no_new_class [[5; 0; 5]; [0; 7; 7]]%Z
           [[1; 1; 0]; [0; 2; 2]]%Z [[0; 0; 5]; [0; 7; 7]]%Z (0, 0) 1%Z 0%Z);
    reflexivity.
Defined.

(** ** assert_consistent_labels *)

Lemma np_unique_uniform_length (xs : list Z) c :
  Forall (eq c) xs → length (np_unique xs) <= 1.
Proof.
  intros H. destruct xs as [|x xs]; [simpl; lia|].
  rewrite (np_unique_singleton (x :: xs) c); [done|done|].
  intros y Hy. symmetry. by eapply Forall_forall in H.
Qed.

(** More than one distinct value. *)
Lemma np_unique_length_gt1 (xs : list Z) :
  1 < length (np_unique xs) ↔ ∃ x y, x ∈ xs ∧ y ∈ xs ∧ x ≠ y.
Proof.
  split.
  - intros H. pose proof (np_unique_sorted xs) as Hs.
    destruct (np_unique xs) as [|a [|b l]] eqn:E; simpl in H; try lia.
    exists a, b.
    split; [apply elem_of_np_unique; rewrite E; by left|].
    split; [apply elem_of_np_unique; rewrite E; right; by left|].
    pose proof (sorted_lookup_lt _ 0 1 a b Hs eq_refl eq_refl). lia.
  - intros (x & y & Hx & Hy & Hne).
    destruct (np_unique xs) as [|a [|b l]] eqn:E; simpl; try lia.
    + apply np_unique_nil_inv in E. subst. by apply not_elem_of_nil in Hx.
    + pose proof (np_unique_singleton_inv _ _ E x Hx).
      pose proof (np_unique_singleton_inv _ _ E y Hy). congruence.
Qed.

Section ValidatorMore.

Variable label : list (list bool) → grid.

Lemma assert_loop_no_mismatch (I C : grid) (ids : list Z) :
  (∀ id, id ∈ ids →
     ∃ sel, take_at C (np_where_eq I id) = Some sel
            ∧ length (np_unique sel) <= 1) →
  ∀ a fa, ∃ a' fa',
    foldM (assert_consistent_labels_step label I C) (a, false, fa, []) ids
    = Some (a', false, fa', []).
Proof.
  induction ids as [|id ids IH]; intros H a fa; simpl; [eauto|].
  destruct (H id) as (sel & Hsel & Hlen); [by left|].
  unfold assert_consistent_labels_step at 1. rewrite Hsel. simpl.
  destruct (Nat.ltb_spec 1 (length (np_unique sel))) as [?|_]; [lia|].
  destruct (2 <? _); simpl; apply IH; intros id' Hid'; apply H; by right.
Qed.

Lemma assert_step_lists (I C : grid) a m fa fm id a1 m1 fa1 fm1 :
  assert_consistent_labels_step label I C (a, m, fa, fm) id
  = Some (a1, m1, fa1, fm1) →
  ∃ sel, take_at C (np_where_eq I id) = Some sel
    ∧ fa1 = (if 2 <? length (np_unique (flatten (label (eq_mask I id))))
             then fa ++ [id] else fa)
    ∧ fm1 = (if 1 <? length (np_unique sel) then fm ++ [id] else fm).
Proof.
  unfold assert_consistent_labels_step.
  destruct (take_at C (np_where_eq I id)) as [sel|];
    [|by destruct (2 <? _)].
  intros Hf. exists sel. split; [done|]. simpl in Hf.
  destruct (2 <? _), (1 <? _); by simplify_eq.
Qed.

Lemma assert_loop_members (I C : grid) (ids : list Z) :
  ∀ a m fa fm a' m' fa' fm',
    foldM (assert_consistent_labels_step label I C) (a, m, fa, fm) ids
    = Some (a', m', fa', fm') →
    (∀ id, id ∈ fa'
           ↔ id ∈ fa
             ∨ (id ∈ ids
                ∧ 2 < length (np_unique (flatten (label (eq_mask I id))))))
    ∧ (∀ id, id ∈ fm'
             ↔ id ∈ fm
               ∨ (id ∈ ids
                  ∧ ∃ sel, take_at C (np_where_eq I id) = Some sel
                           ∧ 1 < length (np_unique sel))).
Proof.
  induction ids as [|id0 ids IH]; intros a m fa fm a' m' fa' fm' Hf.
  - simpl in Hf. simplify_eq.
    split; intros id; rewrite elem_of_nil; tauto.
  - cbn [foldM] in Hf.
    destruct (assert_consistent_labels_step label I C (a, m, fa, fm) id0)
      as [[[[a1 m1] fa1] fm1]|] eqn:Hstep; simpl in Hf; [|done].
    apply assert_step_lists in Hstep as (sel & Hsel & -> & ->).
    destruct (IH _ _ _ _ _ _ _ _ Hf) as [Ha Hb]. clear IH Hf. split.
    + intros id. rewrite Ha, elem_of_cons. clear Ha Hb.
      destruct (Nat.ltb_spec 2
                  (length (np_unique (flatten (label (eq_mask I id0))))))
        as [Hc|Hc].
      * rewrite elem_of_app, elem_of_cons, elem_of_nil.
        intuition (subst; auto).
      * intuition (subst; auto; lia).
    + intros id. rewrite Hb, elem_of_cons. clear Ha Hb.
      destruct (Nat.ltb_spec 1 (length (np_unique sel))) as [Hc|Hc].
      * rewrite elem_of_app, elem_of_cons, elem_of_nil.
        intuition (subst; eauto).
      * split.
        -- intuition auto.
        -- intros [?|[[->|?] (sel' & Hsel' & Hlt)]]; eauto.
           rewrite Hsel in Hsel'. injection Hsel' as <-. lia.
Qed.

(** [X5] After [add_contour] the validator never reports a mismatch: for a
    class mask and an instance mask of one shape, [assert_consistent_labels]
    applied to the instance mask and the result of [add_contour] returns
    [mask_mismatch_error = False] and an empty list of mismatch ids. *)
Theorem add_contour_then_no_mismatch (C I : grid) :
  same_shape C I →
  ∃ R user_annot_error faulty_ids_annot,
    add_contour C I = Some R
    ∧ assert_consistent_labels label (I, R)
      = Some (user_annot_error, false, faulty_ids_annot, []).
Proof.
  intros Hs. destruct (add_contour_total C I Hs) as (R & HR & HsR).
  destruct (assert_loop_no_mismatch I R (get_unique_objects I)) with
    (a := false) (fa := @nil Z) as (a' & fa' & Hf).
  { intros id Hid.
    destruct (add_contour_object C I R id Hs HR Hid) as (v & _ & _ & Hall & _).
    exists (select id I R). split; [by apply take_at_where|].
    by eapply np_unique_uniform_length. }
  by exists R, a', fa'.
Qed.

(** [X6] The two lists of the report are complete and exact: an id is in
    [faulty_ids_annot] exactly when it is listed by [get_unique_objects]
    and the labelling of its pixels has more than two distinct labels, and
    it is in [faulty_ids_missmatch] exactly when it is listed and two of
    its pixels hold different class values. *)
Theorem assert_consistent_labels_lists (I C : grid) a m fa fm :
  same_shape I C →
  assert_consistent_labels label (I, C) = Some (a, m, fa, fm) →
  (∀ id, id ∈ fa
         ↔ id ∈ get_unique_objects I
           ∧ 2 < length (np_unique (flatten (label (eq_mask I id)))))
  ∧ (∀ id, id ∈ fm
           ↔ id ∈ get_unique_objects I
             ∧ ∃ p q x y, get_at I p = Some id ∧ get_at C p = Some x
                          ∧ get_at I q = Some id ∧ get_at C q = Some y
                          ∧ x ≠ y).
Proof.
  intros Hs Hf. unfold assert_consistent_labels in Hf.
  destruct (assert_loop_members I C _ _ _ _ _ _ _ _ _ Hf) as [Ha Hm].
  split; intros id; [rewrite Ha|rewrite Hm]; rewrite elem_of_nil.
  - tauto.
  - rewrite (take_at_where id I C Hs). split.
    + intros [[]|(Hid & sel & [= <-] & Hlt)]. split; [done|].
      apply np_unique_length_gt1 in Hlt as (x & y & Hx & Hy & Hne).
      apply elem_of_select in Hx as (p & ? & ?).
      apply elem_of_select in Hy as (q & ? & ?). by exists p, q, x, y.
    + intros (Hid & p & q & x & y & Hp & Hx & Hq & Hy & Hne). right.
      split; [done|]. eexists. split; [done|].
      apply np_unique_length_gt1. exists x, y.
      rewrite !elem_of_select. split; [by exists p|]. split; [by exists q|done].
Qed.

End ValidatorMore.

Lemma add_contour_then_no_mismatch_witness :
  same_shape [[3; 9; 0]; [0; 7; 7]]%Z [[1; 1; 0]; [0; 2; 2]]%Z
  ∧ assert_consistent_labels (λ _, [])
      ([[1; 1; 0]; [0; 2; 2]]%Z, [[3; 9; 0]; [0; 7; 7]]%Z)
    = Some (false, true, [], [1%Z])
  ∧ ∃ R a fa,
      add_contour [[3; 9; 0]; [0; 7; 7]]%Z [[1; 1; 0]; [0; 2; 2]]%Z = Some R
      ∧ assert_consistent_labels (λ _, []) ([[1; 1; 0]; [0; 2; 2]]%Z, R)
        = Some (a, false, fa, []).
Proof.
  split; [reflexivity|]. split; [reflexivity|].
  exact (add_contour_then_no_mismatch (λ _, []) [[3; 9; 0]; [0; 7; 7]]%Z
           [[1; 1; 0]; [0; 2; 2]]%Z eq_refl).
Defined.

Lemma assert_consistent_labels_lists_witness :
  assert_consistent_labels (λ _, [])
    ([[1; 1; 0]; [0; 2; 2]]%Z, [[3; 9; 0]; [0; 7; 7]]%Z)
  = Some (false, true, [], [1%Z])
  ∧ (2%Z ∈ [1%Z]
     ↔ 2%Z ∈ get_unique_objects [[1; 1; 0]; [0; 2; 2]]%Z
       ∧ ∃ p q x y,
           get_at [[1; 1; 0]; [0; 2; 2]]%Z p = Some 2%Z
           ∧ get_at [[3; 9; 0]; [0; 7; 7]]%Z p = Some x
           ∧ get_at [[1; 1; 0]; [0; 2; 2]]%Z q = Some 2%Z
           ∧ get_at [[3; 9; 0]; [0; 7; 7]]%Z q = Some y
           ∧ x ≠ y).
Proof.
  split; [reflexivity|].
  exact (proj2 (assert_consistent_labels_lists (λ _, [])
                  [[1; 1; 0]; [0; 2; 2]]%Z [[3; 9; 0]; [0; 7; 7]]%Z
                  false true [] [1%Z] eq_refl eq_refl) 2%Z).
Defined.

(** ** compute_new_instance_mask *)

Lemma same_shape_zero_set (D : list Z) (I : grid) :
  same_shape (zero_set D I) I.
Proof.
  unfold same_shape, zero_set. induction I as [|row I IH]; [done|].
  cbn [map]. rewrite !fmap_cons, IH. f_equal. apply length_map.
Qed.

Lemma zero_set_nil (I : grid) : zero_set [] I = I.
Proof.
  unfold zero_set. induction I as [|row I IH]; [done|].
  cbn [map]. rewrite IH. f_equal.
  induction row as [|x row IHr]; [done|]. cbn [map]. by rewrite IHr.
Qed.

Lemma get_at_zero_set (D : list Z) (I : grid) p :
  get_at (zero_set D I) p
  = (λ x, if decide (x ∈ D) then 0%Z else x) <$> get_at I p.
Proof.
  destruct p as [r c]. unfold get_at, zero_set. simpl.
  change (map ?f ?l) with (f <$> l). rewrite list_lookup_fmap.
  destruct (I !! r) as [row|]; simpl; [|done].
  change (map ?f ?l) with (f <$> l). by rewrite list_lookup_fmap.
Qed.

(** Deleting other objects leaves the pixels of a non-background id. *)
Lemma select_zero_set (D : list Z) id (I L : grid) :
  id ≠ 0%Z → id ∉ D → select id (zero_set D I) L = select id I L.
Proof.
  intros Hne Hid. unfold zero_set. revert L.
  induction I as [|irow I IH]; intros [|lrow L]; try done.
  cbn [map select]. rewrite IH. f_equal. clear IH. revert lrow.
  induction irow as [|i irow IHr]; intros [|x lrow]; try done.
  cbn [map select_row]. rewrite IHr.
  destruct (decide (i ∈ D)) as [Hi|Hi].
  - destruct (Z.eqb_spec 0 id) as [?|_]; [congruence|].
    destruct (Z.eqb_spec i id) as [->|_]; done.
  - done.
Qed.

(** Zeroing the pixels of [id] in place deletes one more object. *)
Lemma assign_zero_set (D : list Z) id (I : grid) :
  assign id 0 (zero_set D I) (zero_set D I) = zero_set (id :: D) I.
Proof.
  unfold zero_set. induction I as [|irow I IH]; [done|].
  cbn [map assign]. rewrite IH. f_equal. clear IH.
  induction irow as [|i irow IHr]; [done|].
  cbn [map assign_row]. rewrite IHr. f_equal.
  destruct (decide (i ∈ D)) as [Hi|Hi].
  - destruct (decide (i ∈ id :: D)) as [_|Hn]; [by destruct (0 =? id)%Z|].
    exfalso. apply Hn. by right.
  - destruct (Z.eqb_spec i id) as [->|Hne].
    + destruct (decide (id ∈ id :: D)) as [_|Hn]; [done|].
      exfalso. apply Hn. by left.
    + destruct (decide (i ∈ id :: D)) as [[?|?]%elem_of_cons|_]; done.
Qed.

Lemma only_background_spec (u : list Z) :
  bool_decide (length u = 1) && bool_decide (u !! 0 = Some 0%Z) = true
  ↔ u = [0%Z].
Proof.
  rewrite andb_true_iff, !bool_decide_eq_true. split.
  - intros [Hl H0]. destruct u as [|x [|? ?]]; simpl in *; try done.
    by injection H0 as ->.
  - by intros ->.
Qed.

(** One iteration on the mask in which the objects of [D] are deleted. *)
Lemma compute_new_instance_mask_step_zero_set (L I : grid) (D : list Z) id :
  same_shape L I →
  ∃ D1, compute_new_instance_mask_step L (zero_set D I) id
        = Some (zero_set D1 I)
    ∧ ∀ x, x ∈ D1
           ↔ x ∈ D ∨ (x = id ∧ np_unique (select id (zero_set D I) L)
                                 = [0%Z]).
Proof.
  intros Hs. unfold compute_new_instance_mask_step, take_mask.
  assert (HsN : same_shape (zero_set D I) L).
  { eapply same_shape_trans; [apply same_shape_zero_set|].
    by apply same_shape_sym. }
  rewrite decide_True by done. rewrite (take_at_where id _ L HsN). simpl.
  destruct (bool_decide (length _ = 1) && bool_decide (_ !! 0 = Some 0%Z))
    eqn:E.
  - apply only_background_spec in E.
    rewrite (put_at_where id 0 _ _ (same_shape_refl _)), assign_zero_set.
    exists (id :: D). split; [done|]. intros x. rewrite elem_of_cons.
    intuition.
  - exists D. split; [done|]. intros x. split; [auto|].
    intros [?|[_ Hu]]; [done|]. apply only_background_spec in Hu. congruence.
Qed.

Lemma compute_new_instance_mask_loop (L I : grid) (ids : list Z) :
  same_shape L I → NoDup ids →
  ∀ D, (∀ id, id ∈ ids → id ∉ D) →
    ∃ D', foldM (compute_new_instance_mask_step L) (zero_set D I) ids
          = Some (zero_set D' I)
      ∧ ∀ x, x ≠ 0%Z →
          (x ∈ D' ↔ x ∈ D ∨ (x ∈ ids ∧ np_unique (select x I L) = [0%Z])).
Proof.
  intros Hs. induction ids as [|id ids IH]; intros Hnd D HD.
  - exists D. split; [done|]. intros x _. rewrite elem_of_nil. tauto.
  - apply NoDup_cons in Hnd as [Hid Hnd]. cbn [foldM].
    destruct (compute_new_instance_mask_step_zero_set L I D id Hs)
      as (D1 & -> & HD1).
    destruct (IH Hnd D1) as (D' & HD' & Hmem).
    { intros id' Hid'. rewrite HD1. intros [?|[-> _]]; [|done].
      eapply HD; [|done]. by right. }
    exists D'. split; [done|]. intros x Hx. rewrite (Hmem x Hx), HD1.
    rewrite elem_of_cons. split.
    + intros [[?|[-> Hu]]|[? ?]]; auto. right. split; [by left|].
      rewrite <- Hu. symmetry. apply f_equal, select_zero_set; [done|].
      apply HD. by left.
    + intros [?|[[->|?] Hu]]; auto. left. right. split; [done|].
      rewrite <- Hu. apply f_equal, select_zero_set; [done|].
      apply HD. by left.
Qed.

(** [X7] On masks of one shape [compute_new_instance_mask] returns the
    instance mask with some objects zeroed: a pixel of an object that is
    listed by [get_unique_objects] and whose pixels are all 0 in the class
    mask becomes 0; a pixel of any other value keeps its value. *)
Theorem compute_new_instance_mask_pixels (L I : grid) :
  same_shape L I →
  ∃ R, compute_new_instance_mask L I = Some R
       ∧ same_shape R I
       ∧ ∀ p x, get_at I p = Some x →
           (x ∈ get_unique_objects I →
            (∀ q, get_at I q = Some x → get_at L q = Some 0%Z) →
            get_at R p = Some 0%Z)
           ∧ (x ∉ get_unique_objects I
              ∨ (∃ q y, get_at I q = Some x ∧ get_at L q = Some y ∧ y ≠ 0%Z) →
              get_at R p = Some x).
Proof.
  intros Hs. unfold compute_new_instance_mask.
  destruct (compute_new_instance_mask_loop L I (get_unique_objects I) Hs
              (get_unique_objects_NoDup I) [])
    as (D & HR & Hmem); [intros ? _; apply not_elem_of_nil|].
  rewrite zero_set_nil in HR. exists (zero_set D I).
  split; [done|]. split; [apply same_shape_zero_set|].
  intros p x Hp. rewrite get_at_zero_set, Hp. simpl.
  destruct (decide (x = 0%Z)) as [->|Hne].
  { split; intros; by destruct (decide (0%Z ∈ D)). }
  specialize (Hmem x Hne). rewrite elem_of_nil in Hmem. split.
  - intros Hx Hbg. rewrite decide_True; [done|]. apply Hmem. right.
    split; [done|]. apply np_unique_singleton.
    + apply select_nonempty; [by apply same_shape_sym|].
      by eapply get_at_flatten.
    + intros y (q & Hq & Hy)%elem_of_select.
      rewrite (Hbg q Hq) in Hy. by injection Hy.
  - intros Hcase. rewrite decide_False; [done|]. rewrite Hmem.
    intros [[]|[Hx Hu]]. destruct Hcase as [?|(q & y & Hq & Hy & Hy0)];
      [done|].
    apply Hy0, (np_unique_singleton_inv _ _ Hu), elem_of_select. eauto.
Qed.

Lemma compute_new_instance_mask_pixels_witness :
  same_shape [[0; 0; 0]; [0; 5; 0]]%Z [[1; 1; 0]; [2; 2; 3]]%Z
  ∧ compute_new_instance_mask [[0; 0; 0]; [0; 5; 0]]%Z [[1; 1; 0]; [2; 2; 3]]%Z
    = Some [[0; 0; 0]; [2; 2; 0]]%Z
  ∧ ∃ R, compute_new_instance_mask [[0; 0; 0]; [0; 5; 0]]%Z
           [[1; 1; 0]; [2; 2; 3]]%Z = Some R
         ∧ same_shape R [[1; 1; 0]; [2; 2; 3]]%Z.
Proof.
  split; [reflexivity|]. split; [reflexivity|].
  destruct (compute_new_instance_mask_pixels [[0; 0; 0]; [0; 5; 0]]%Z
              [[1; 1; 0]; [2; 2; 3]]%Z eq_refl) as (R & HR & HsR & _).
  by exists R.
Defined.

Lemma elem_of_flatten (m : grid) x :
  x ∈ flatten m ↔ ∃ p, get_at m p = Some x.
Proof.
  split; [|intros [p Hp]; by eapply get_at_flatten].
  unfold flatten. induction m as [|row m IH]; simpl.
  - by intros ?%not_elem_of_nil.
  - intros [H|H]%elem_of_app.
    + apply list_elem_of_lookup in H as [c Hc]. by exists (0, c).
    + destruct (IH H) as [[r c] Hp]. by exists (S r, c).
Qed.

(** The result is the instance mask with a set [D] of objects deleted. *)
Lemma compute_new_instance_mask_zero_set (L I : grid) :
  same_shape L I →
  ∃ D, compute_new_instance_mask L I = Some (zero_set D I)
    ∧ ∀ x, x ≠ 0%Z →
        (x ∈ D ↔ x ∈ get_unique_objects I
                 ∧ np_unique (select x I L) = [0%Z]).
Proof.
  intros Hs. unfold compute_new_instance_mask.
  destruct (compute_new_instance_mask_loop L I (get_unique_objects I) Hs
              (get_unique_objects_NoDup I) [])
    as (D & HR & Hmem); [intros ? _; apply not_elem_of_nil|].
  rewrite zero_set_nil in HR. exists D. split; [done|]. intros x Hx.
  rewrite (Hmem x Hx), elem_of_nil. tauto.
Qed.

(** When the function returns, it was called on masks of one shape or on
    an instance mask with no object to visit. *)
Lemma compute_new_instance_mask_Some (L I R : grid) :
  compute_new_instance_mask L I = Some R →
  same_shape L I ∨ (get_unique_objects I = [] ∧ R = I).
Proof.
  unfold compute_new_instance_mask.
  destruct (get_unique_objects I) as [|id ids]; simpl.
  - intros [= <-]. by right.
  - destruct (decide (same_shape I L)) as [Hs|Hs];
      [intros _; left; by apply same_shape_sym|].
    assert (compute_new_instance_mask_step L I id = None) as ->; [|done].
    unfold compute_new_instance_mask_step, take_mask.
    by rewrite decide_False.
Qed.

(** [X8] [compute_new_instance_mask] only deletes: whenever it returns, the
    result has the shape of the instance mask, every pixel holds the value it
    had or 0, and so every value of the result is 0 or a value of the
    instance mask passed in. *)
Theorem compute_new_instance_mask_deletion_only (L I R : grid) :
  compute_new_instance_mask L I = Some R →
  same_shape R I
  ∧ (∀ p x, get_at I p = Some x →
       get_at R p = Some x ∨ get_at R p = Some 0%Z)
  ∧ (∀ v, v ∈ flatten R → v = 0%Z ∨ v ∈ flatten I).
Proof.
  intros HR.
  assert (H : same_shape R I
              ∧ ∀ p x, get_at I p = Some x →
                  get_at R p = Some x ∨ get_at R p = Some 0%Z).
  { destruct (compute_new_instance_mask_Some L I R HR) as [Hs|[_ ->]];
      [|split; [apply same_shape_refl|auto]].
    destruct (compute_new_instance_mask_zero_set L I Hs) as (D & HD & _).
    rewrite HD in HR. injection HR as <-.
    split; [apply same_shape_zero_set|]. intros p x Hp.
    rewrite get_at_zero_set, Hp. simpl. destruct (decide (x ∈ D)); auto. }
  destruct H as [Hs Hpix]. split; [done|]. split; [done|].
  intros v [p Hp]%elem_of_flatten.
  destruct (get_at_shape R I p v Hs Hp) as [x Hx].
  destruct (Hpix p x Hx) as [H|H]; rewrite H in Hp; injection Hp as <-;
    [right; by eapply get_at_flatten | by left].
Qed.

Lemma compute_new_instance_mask_deletion_only_witness :
  same_shape [[0; 0; 0]; [2; 2; 0]]%Z [[1; 1; 0]; [2; 2; 3]]%Z
  ∧ ∀ v, v ∈ flatten [[0; 0; 0]; [2; 2; 0]]%Z
         → v = 0%Z ∨ v ∈ flatten [[1; 1; 0]; [2; 2; 3]]%Z.
Proof.
  destruct (compute_new_instance_mask_deletion_only
              [[0; 0; 0]; [0; 5; 0]]%Z [[1; 1; 0]; [2; 2; 3]]%Z
              [[0; 0; 0]; [2; 2; 0]]%Z eq_refl) as (H1 & _ & H2).
  by split.
Defined.

Lemma nonneg_zero_set (D : list Z) (I : grid) :
  nonneg_mask I → nonneg_mask (zero_set D I).
Proof.
  unfold nonneg_mask, zero_set. intros H.
  apply Forall_forall. intros row Hrow. apply Forall_forall. intros x Hx.
  change (map ?f ?l) with (f <$> l) in Hrow.
  apply list_elem_of_fmap in Hrow as (row0 & -> & Hrow0).
  change (map ?f ?l) with (f <$> l) in Hx.
  apply list_elem_of_fmap in Hx as (x0 & -> & Hx0).
  destruct (decide (x0 ∈ D)); [done|].
  eapply Forall_forall in H; [|exact Hrow0]. by eapply Forall_forall in H.
Qed.

Lemma zero_set_fixed (D : list Z) (R : grid) :
  (∀ y, y ∈ flatten R → y ≠ 0%Z → y ∉ D) → zero_set D R = R.
Proof.
  intros H. apply grid_ext; [apply same_shape_zero_set|]. intros p.
  rewrite get_at_zero_set. destruct (get_at R p) as [y|] eqn:Hy; [|done].
  simpl. f_equal. destruct (decide (y ∈ D)) as [Hin|]; [|done].
  destruct (decide (y = 0%Z)) as [->|Hne]; [done|].
  exfalso. eapply H; [|done|done]. by eapply get_at_flatten.
Qed.

(** [X9] On an instance mask that holds a background pixel and no negative
    value, [compute_new_instance_mask] does what its docstring says: an
    object is deleted when all its pixels are 0 in the class mask and kept
    as it is otherwise, and the ids listed for the result are among the ids
    listed for the mask passed in. *)
Theorem compute_new_instance_mask_with_background (L I : grid) :
  same_shape L I → nonneg_mask I → 0%Z ∈ flatten I →
  ∃ R, compute_new_instance_mask L I = Some R
       ∧ (∀ p x, get_at I p = Some x →
            ((∀ q, get_at I q = Some x → get_at L q = Some 0%Z) →
             get_at R p = Some 0%Z)
            ∧ ((∃ q y, get_at I q = Some x ∧ get_at L q = Some y ∧ y ≠ 0%Z) →
               get_at R p = Some x))
       ∧ (∀ id, id ∈ get_unique_objects R → id ∈ get_unique_objects I).
Proof.
  intros Hs Hnn H0.
  destruct (compute_new_instance_mask_zero_set L I Hs) as (D & HR & Hmem).
  destruct (get_unique_objects_with_background I Hnn H0) as [_ Hids].
  exists (zero_set D I). split; [done|]. split.
  - intros p x Hp. rewrite get_at_zero_set, Hp. simpl.
    destruct (decide (x = 0%Z)) as [->|Hne].
    { split; intros; by destruct (decide (0%Z ∈ D)). }
    assert (Hx : x ∈ get_unique_objects I).
    { apply Hids. split; [by eapply get_at_flatten|done]. }
    split.
    + intros Hbg. rewrite decide_True; [done|]. apply (Hmem x Hne).
      split; [done|]. apply np_unique_singleton.
      * apply select_nonempty; [by apply same_shape_sym|].
        by eapply get_at_flatten.
      * intros y (q & Hq & Hy)%elem_of_select.
        rewrite (Hbg q Hq) in Hy. by injection Hy.
    + intros (q & y & Hq & Hy & Hy0). rewrite decide_False; [done|].
      rewrite (Hmem x Hne). intros [_ Hu].
      apply Hy0, (np_unique_singleton_inv _ _ Hu), elem_of_select. eauto.
  - intros id Hid.
    assert (H0R : 0%Z ∈ flatten (zero_set D I)).
    { apply elem_of_flatten in H0 as [p Hp]. apply elem_of_flatten.
      exists p. rewrite get_at_zero_set, Hp. simpl.
      by destruct (decide (0%Z ∈ D)). }
    apply (get_unique_objects_with_background _ (nonneg_zero_set D I Hnn) H0R)
      in Hid as [[p Hp]%elem_of_flatten Hne].
    apply Hids. split; [|done].
    rewrite get_at_zero_set in Hp.
    destruct (get_at I p) as [x|] eqn:Hx; [|done]. simpl in Hp.
    destruct (decide (x ∈ D)); injection Hp as <-; [done|].
    by eapply get_at_flatten.
Qed.

Lemma compute_new_instance_mask_with_background_witness :
  same_shape [[0; 0; 0]; [0; 5; 0]]%Z [[1; 1; 0]; [2; 2; 3]]%Z
  ∧ nonneg_mask [[1; 1; 0]; [2; 2; 3]]%Z
  ∧ 0%Z ∈ flatten [[1; 1; 0]; [2; 2; 3]]%Z
  ∧ ∃ R, compute_new_instance_mask [[0; 0; 0]; [0; 5; 0]]%Z
           [[1; 1; 0]; [2; 2; 3]]%Z = Some R
         ∧ ∀ id, id ∈ get_unique_objects R
                 → id ∈ get_unique_objects [[1; 1; 0]; [2; 2; 3]]%Z.
Proof.
  assert (Hnn : nonneg_mask [[1; 1; 0]; [2; 2; 3]]%Z).
  { unfold nonneg_mask. repeat constructor; lia. }
  assert (H0 : 0%Z ∈ flatten [[1; 1; 0]; [2; 2; 3]]%Z).
  { apply list_elem_of_In. simpl. tauto. }
  split; [reflexivity|]. split; [exact Hnn|]. split; [exact H0|].
  destruct (compute_new_instance_mask_with_background
              [[0; 0; 0]; [0; 5; 0]]%Z [[1; 1; 0]; [2; 2; 3]]%Z
              eq_refl Hnn H0) as (R & HR & _ & Hsub).
  by exists R.
Defined.

(** [X10] On an instance mask that holds a background pixel and no negative
    value a second pass deletes nothing more: [compute_new_instance_mask]
    applied to its own result, with the same class mask, returns that
    result. *)
Theorem compute_new_instance_mask_stable (L I : grid) :
  same_shape L I → nonneg_mask I → 0%Z ∈ flatten I →
  ∃ R, compute_new_instance_mask L I = Some R
       ∧ compute_new_instance_mask L R = Some R.
Proof.
  intros Hs Hnn H0.
  destruct (compute_new_instance_mask_zero_set L I Hs) as (D & HR & Hmem).
  destruct (get_unique_objects_with_background I Hnn H0) as [_ Hids].
  exists (zero_set D I). split; [done|].
  assert (HsR : same_shape L (zero_set D I)).
  { eapply same_shape_trans; [exact Hs|].
    apply same_shape_sym, same_shape_zero_set. }
  destruct (compute_new_instance_mask_zero_set L _ HsR) as (D2 & HR2 & Hmem2).
  rewrite HR2. f_equal. apply zero_set_fixed.
  intros y [p Hp]%elem_of_flatten Hne. rewrite (Hmem2 y Hne).
  intros [_ Hu]. rewrite get_at_zero_set in Hp.
  destruct (get_at I p) as [x|] eqn:Hx; [|done]. simpl in Hp.
  destruct (decide (x ∈ D)) as [|Hx']; injection Hp as <-; [done|].
  apply Hx', (Hmem x Hne). split.
  - apply Hids. split; [by eapply get_at_flatten|done].
  - by rewrite <- (select_zero_set D x I L Hne Hx').
Qed.

Lemma compute_new_instance_mask_stable_witness :
  same_shape [[0; 0; 0]; [0; 5; 0]]%Z [[1; 1; 0]; [2; 2; 3]]%Z
  ∧ nonneg_mask [[1; 1; 0]; [2; 2; 3]]%Z
  ∧ 0%Z ∈ flatten [[1; 1; 0]; [2; 2; 3]]%Z
  ∧ ∃ R, compute_new_instance_mask [[0; 0; 0]; [0; 5; 0]]%Z
           [[1; 1; 0]; [2; 2; 3]]%Z = Some R
         ∧ compute_new_instance_mask [[0; 0; 0]; [0; 5; 0]]%Z R = Some R.
Proof.
  assert (Hnn : nonneg_mask [[1; 1; 0]; [2; 2; 3]]%Z).
  { unfold nonneg_mask. repeat constructor; lia. }
  assert (H0 : 0%Z ∈ flatten [[1; 1; 0]; [2; 2; 3]]%Z).
  { apply list_elem_of_In. simpl. tauto. }
  split; [reflexivity|]. split; [exact Hnn|]. split; [exact H0|].
  exact (compute_new_instance_mask_stable [[0; 0; 0]; [0; 5; 0]]%Z
           [[1; 1; 0]; [2; 2; 3]]%Z eq_refl Hnn H0).
Defined.

(** Without a background pixel the second pass can delete more: the first
    pass skips object 1, the second visits it. *)
Remark compute_new_instance_mask_second_pass :
  compute_new_instance_mask [[0; 0]; [0; 0]]%Z [[1; 1]; [2; 2]]%Z
  = Some [[1; 1]; [0; 0]]%Z
  ∧ compute_new_instance_mask [[0; 0]; [0; 0]]%Z [[1; 1]; [0; 0]]%Z
    = Some [[0; 0]; [0; 0]]%Z.
Proof. split; reflexivity. Qed.

(** ** compute_new_labels_mask *)

Lemma majority_None (xs : list Z) : majority xs = None ↔ xs = [].
Proof.
  split; [|by intros ->].
  destruct xs as [|x xs]; [done|]. intros H.
  destruct (majority_is_Some (x :: xs)) as [v Hv]; [done|]. congruence.
Qed.

Lemma select_nil (v : Z) (I L : grid) :
  same_shape I L → (select v I L = [] ↔ v ∉ flatten I).
Proof.
  intros Hs. split.
  - intros E Hv. by apply (select_nonempty v I L Hs Hv).
  - intros Hv. destruct (select v I L) as [|x l] eqn:E; [done|].
    exfalso. apply Hv.
    assert (Hx : x ∈ select v I L) by (rewrite E; by left).
    apply elem_of_select in Hx as (p & Hp & _). by eapply get_at_flatten.
Qed.

Lemma foldM_None_at {A B : Type} (f : A → B → option A) (l : list B) b :
  b ∈ l → (∀ a, f a b = None) → ∀ a, foldM f a l = None.
Proof.
  intros Hb Hf. induction l as [|b0 l IH]; intros a.
  - by apply not_elem_of_nil in Hb.
  - simpl. apply elem_of_cons in Hb as [<-|Hb]; [by rewrite Hf|].
    destruct (f a b0); simpl; [by apply IH|done].
Qed.

Lemma foldM_None_elem {A B : Type} (P : A → Prop) (f : A → B → option A)
  (l : list B) :
  (∀ a b a', P a → f a b = Some a' → P a') →
  ∀ a, P a → foldM f a l = None → ∃ b a0, b ∈ l ∧ P a0 ∧ f a0 b = None.
Proof.
  intros HP. induction l as [|b l IH]; intros a Ha; simpl; [done|].
  destruct (f a b) as [a'|] eqn:E; simpl.
  - intros H. destruct (IH a' (HP _ _ _ Ha E) H) as (b0 & a0 & ? & ? & ?).
    exists b0, a0. split; [by right|done].
  - intros _. exists b, a. split; [by left|done].
Qed.

(** When the value to write for an object cannot be computed. *)
Lemma labels_value_None (L I O : grid) known id :
  same_shape I L → same_shape O L → id ∈ flatten I →
  (labels_value L I O known id = None
   ↔ id ∈ known ∧ (id ∉ flatten O)
     ∧ 1 < length (np_unique (select id I L))).
Proof.
  intros Hs HsO Hocc. unfold labels_value.
  destruct (py_in id known) eqn:Hin; simpl.
  - apply py_in_spec in Hin. rewrite (take_at_where id I L Hs). simpl.
    pose proof (select_nonempty id I L Hs Hocc) as Hne.
    assert (Hlen : length (np_unique (select id I L)) ≠ 0).
    { intros H%length_zero_iff_nil. by apply np_unique_nil_inv in H. }
    destruct (bool_decide_reflect (length (np_unique (select id I L)) = 1))
      as [H1|H1].
    + split; [|intros (_ & _ & ?); lia].
      destruct (np_unique (select id I L)) as [|? ?]; done.
    + rewrite (take_at_where id O L HsO). simpl.
      rewrite majority_None, (select_nil id O L HsO).
      split; [intros ?; split; [done|split; [done|lia]] | tauto].
  - split; [done|]. intros (Hk%py_in_spec & _). congruence.
Qed.

Lemma labels_same_shape (L I O R : grid) known :
  same_shape I L → compute_new_labels_mask L I O known = Some R →
  same_shape I R.
Proof.
  intros Hs HR. unfold compute_new_labels_mask in HR.
  assert (Hs0 : same_shape I (np_zeros_like L)).
  { eapply same_shape_trans; [exact Hs|].
    apply same_shape_sym, same_shape_zeros_like. }
  by destruct (loop_frame I _ _ (labels_writes_only L I O known _) _ R
                 Hs0 HR).
Qed.

(** All pixels of one instance value hold one value in the result. *)
Lemma labels_uniform (L I O R : grid) known id p q :
  same_shape I L → compute_new_labels_mask L I O known = Some R →
  get_at I p = Some id → get_at I q = Some id →
  is_Some (get_at R p) ∧ get_at R p = get_at R q.
Proof.
  intros Hs HR Hp Hq. destruct (decide (id = 0%Z)) as [->|Hne].
  - rewrite (labels_background L I O R known p Hs HR Hp),
      (labels_background L I O R known q Hs HR Hq). split; [by eexists|done].
  - destruct (labels_pixel L I O R known p id Hs HR Hp Hne) as (c & Hc & ->).
    destruct (labels_pixel L I O R known q id Hs HR Hq Hne) as (c' & Hc' & ->).
    split; [by eexists|congruence].
Qed.

Section LabelsValidator.

Variable label : list (list bool) → grid.

(** [X11] The class mask [compute_new_labels_mask] returns is consistent
    with the edited instance mask: all pixels of one instance value hold one
    class value, and [assert_consistent_labels] on the pair reports no
    mismatch. *)
Theorem compute_new_labels_mask_consistent (L I O R : grid) known :
  same_shape I L → compute_new_labels_mask L I O known = Some R →
  (∀ id p q, get_at I p = Some id → get_at I q = Some id →
     get_at R p = get_at R q)
  ∧ ∃ user_annot_error faulty_ids_annot,
      assert_consistent_labels label (I, R)
      = Some (user_annot_error, false, faulty_ids_annot, []).
Proof.
  intros Hs HR. split.
  - intros id p q Hp Hq. by apply (labels_uniform L I O R known id).
  - pose proof (labels_same_shape L I O R known Hs HR) as HsR.
    destruct (assert_loop_no_mismatch label I R (get_unique_objects I)) with
      (a := false) (fa := @nil Z) as (a' & fa' & Hf); [|by exists a', fa'].
    intros id Hid. exists (select id I R).
    split; [by apply take_at_where|].
    apply get_unique_objects_occur, elem_of_flatten in Hid as [p Hp].
    destruct (labels_uniform L I O R known id p p Hs HR Hp Hp) as [[c Hc] _].
    apply (np_unique_uniform_length _ c), select_uniform.
    intros q x Hq Hx.
    destruct (labels_uniform L I O R known id p q Hs HR Hp Hq) as [_ E].
    congruence.
Qed.

End LabelsValidator.

Lemma compute_new_labels_mask_consistent_witness :
  same_shape [[1; 1; 2]; [1; 0; 3]]%Z [[4; 4; 5]; [0; 0; 0]]%Z
  ∧ compute_new_labels_mask [[4; 4; 5]; [0; 0; 0]]%Z
      [[1; 1; 2]; [1; 0; 3]]%Z [[1; 1; 2]; [0; 0; 0]]%Z [1; 2]%Z
    = Some [[4; 4; 5]; [4; 0; 3]]%Z
  ∧ ∃ a fa, assert_consistent_labels (λ _, [])
              ([[1; 1; 2]; [1; 0; 3]]%Z, [[4; 4; 5]; [4; 0; 3]]%Z)
            = Some (a, false, fa, []).
Proof.
  split; [reflexivity|]. split; [reflexivity|].
  exact (proj2 (compute_new_labels_mask_consistent (λ _, [])
                  [[4; 4; 5]; [0; 0; 0]]%Z [[1; 1; 2]; [1; 0; 3]]%Z
                  [[1; 1; 2]; [0; 0; 0]]%Z [[4; 4; 5]; [4; 0; 3]]%Z [1; 2]%Z
                  eq_refl eq_refl)).
Defined.

(** [X12] A consistent pair is a fixed point: when the class mask is 0 on
    the background of the instance mask, every object holds a single class
    value and every object id is in [old_instances],
    [compute_new_labels_mask] returns the class mask it was given, whatever
    the original instance mask. *)
Theorem compute_new_labels_mask_fixed_point (L I O : grid) known :
  same_shape I L →
  (∀ p, get_at I p = Some 0%Z → get_at L p = Some 0%Z) →
  (∀ id p q x y, get_at I p = Some id → get_at I q = Some id →
     get_at L p = Some x → get_at L q = Some y → x = y) →
  (∀ id, id ∈ flatten I → id ≠ 0%Z → id ∈ known) →
  compute_new_labels_mask L I O known = Some L.
Proof.
  intros Hs Hbg Huni Hknown.
  assert (Hval : ∀ id p x, id ≠ 0%Z → get_at I p = Some id →
                   get_at L p = Some x →
                   labels_value L I O known id = Some x).
  { intros id p x Hne Hp Hx. unfold labels_value.
    assert (Hocc : id ∈ flatten I) by by eapply get_at_flatten.
    rewrite (proj2 (py_in_spec id known) (Hknown id Hocc Hne)). simpl.
    rewrite (take_at_where id I L Hs). simpl.
    rewrite (np_unique_singleton (select id I L) x).
    - done.
    - by apply select_nonempty.
    - intros y (q & Hq & Hy)%elem_of_select. by eapply (Huni id q p). }
  assert (HR : ∃ R, compute_new_labels_mask L I O known = Some R
                    ∧ same_shape I R).
  { unfold compute_new_labels_mask.
    apply (foldM_is_Some (same_shape I)).
    - eapply same_shape_trans; [exact Hs|].
      apply same_shape_sym, same_shape_zeros_like.
    - intros N id Hid HN. rewrite elem_of_np_unique in Hid.
      rewrite labels_step_eq. destruct (Z.eqb_spec id 0) as [|Hne]; [eauto|].
      apply elem_of_flatten in Hid as [p Hp].
      destruct (get_at_shape I L p id Hs Hp) as [x Hx].
      rewrite (Hval id p x Hne Hp Hx). simpl.
      rewrite (put_at_where id x I N HN). eexists. split; [done|].
      by apply same_shape_assign_r. }
  destruct HR as (R & HR & HsR). rewrite HR. f_equal.
  apply grid_ext.
  { eapply same_shape_trans; [by apply same_shape_sym|done]. }
  intros p. destruct (get_at I p) as [id|] eqn:Hp.
  - destruct (decide (id = 0%Z)) as [->|Hne].
    + by rewrite (labels_background L I O R known p Hs HR Hp), (Hbg p Hp).
    + destruct (get_at_shape I L p id Hs Hp) as [x Hx].
      destruct (labels_pixel L I O R known p id Hs HR Hp Hne)
        as (c & Hc & ->).
      rewrite (Hval id p x Hne Hp Hx) in Hc. congruence.
  - destruct (get_at R p) as [v|] eqn:Hv.
    { destruct (get_at_shape R I p v (same_shape_sym _ _ HsR) Hv); congruence. }
    destruct (get_at L p) as [v|] eqn:Hv'; [|done].
    destruct (get_at_shape L I p v (same_shape_sym _ _ Hs) Hv'); congruence.
Qed.

Lemma compute_new_labels_mask_fixed_point_witness :
  compute_new_labels_mask [[5; 5; 0]; [0; 7; 7]]%Z [[1; 1; 0]; [0; 2; 2]]%Z
    [[9; 9; 9]]%Z [1; 2]%Z
  = Some [[5; 5; 0]; [0; 7; 7]]%Z.
Proof.
  apply compute_new_labels_mask_fixed_point.
  - reflexivity.
  - intros [[|[|[|r]]] [|[|[|c]]]] H; vm_compute in H; by try discriminate.
  - intros id [[|[|[|r]]] [|[|[|c]]]] [[|[|[|r']]] [|[|[|c']]]] x y Hp Hq Hx Hy;
      vm_compute in Hp, Hq, Hx, Hy; congruence.
  - intros id Hid Hne. apply list_elem_of_In in Hid. apply list_elem_of_In.
    simpl in *. intuition.
Defined.

(** [X13] The only failure of [compute_new_labels_mask] on masks of one
    shape: it raises exactly when some id of [old_instances] that occurs in
    the edited instance mask holds two different class values on its edited
    pixels and has no pixel in the original instance mask (the vote is then
    over no value). *)
Theorem compute_new_labels_mask_raises (L I O : grid) known :
  same_shape I L → same_shape O L →
  (compute_new_labels_mask L I O known = None
   ↔ ∃ id, id ∈ flatten I ∧ id ≠ 0%Z ∧ id ∈ known ∧ (id ∉ flatten O)
           ∧ ∃ p q x y, get_at I p = Some id ∧ get_at L p = Some x
                        ∧ get_at I q = Some id ∧ get_at L q = Some y
                        ∧ x ≠ y).
Proof.
  intros Hs HsO.
  assert (Hmix : ∀ id, 1 < length (np_unique (select id I L))
            ↔ ∃ p q x y, get_at I p = Some id ∧ get_at L p = Some x
                         ∧ get_at I q = Some id ∧ get_at L q = Some y
                         ∧ x ≠ y).
  { intros id. rewrite np_unique_length_gt1. split.
    - intros (x & y & (p & ? & ?)%elem_of_select
                & (q & ? & ?)%elem_of_select & ?). by exists p, q, x, y.
    - intros (p & q & x & y & ? & ? & ? & ? & ?). exists x, y.
      rewrite !elem_of_select. split; [by exists p|]. split; [by exists q|done]. }
  unfold compute_new_labels_mask. split.
  - intros HN.
    destruct (foldM_None_elem (same_shape I)
                (compute_new_labels_mask_step L I O known)
                (np_unique (flatten I))) with (a := np_zeros_like L)
      as (id & N & Hid & HsN & Hstep); [| |done|].
    { intros N id N' HN' Hstep.
      destruct (labels_writes_only L I O known [id] id N N')
        as [->|[c ->]]; [by left|done|done|done|by apply same_shape_assign_r]. }
    { eapply same_shape_trans; [exact Hs|].
      apply same_shape_sym, same_shape_zeros_like. }
    rewrite elem_of_np_unique in Hid. rewrite labels_step_eq in Hstep.
    destruct (Z.eqb_spec id 0) as [|Hne]; [done|].
    destruct (labels_value L I O known id) as [c|] eqn:Hc.
    { simpl in Hstep. by rewrite (put_at_where id c I N HsN) in Hstep. }
    apply (labels_value_None L I O known id Hs HsO Hid) in Hc
      as (Hk & HO & Hlen).
    exists id. repeat split; try done. by apply Hmix.
  - intros (id & Hid & Hne & Hk & HO & Hpix).
    apply (foldM_None_at _ _ id); [by apply elem_of_np_unique|].
    intros N. rewrite labels_step_eq.
    destruct (Z.eqb_spec id 0) as [|_]; [done|].
    rewrite (proj2 (labels_value_None L I O known id Hs HsO Hid)); [done|].
    split; [done|]. split; [done|]. by apply Hmix.
Qed.

Lemma compute_new_labels_mask_raises_witness :
  compute_new_labels_mask [[4; 5]; [0; 0]]%Z [[1; 1]; [1; 0]]%Z
    [[0; 0]; [0; 0]]%Z [1%Z]
  = None
  ∧ ∃ id, id ∈ flatten [[1; 1]; [1; 0]]%Z
          ∧ (id ∉ flatten [[0; 0]; [0; 0]]%Z).
Proof.
  split; [reflexivity|].
  destruct (proj1 (compute_new_labels_mask_raises [[4; 5]; [0; 0]]%Z
                     [[1; 1]; [1; 0]]%Z [[0; 0]; [0; 0]]%Z [1%Z]
                     eq_refl eq_refl) eq_refl)
    as (id & H1 & _ & _ & H2 & _).
  by exists id.
Defined.

(** ** get_contours *)

Lemma set_at_is_Some (m : grid) p v :
  is_Some (set_at m p v) ↔ is_Some (get_at m p).
Proof.
  destruct p as [r c]. unfold set_at, get_at. simpl.
  destruct (m !! r) as [row|]; simpl; [|done].
  destruct (row !! c) as [y|]; simpl; [|done].
  split; intros _; [by exists y | by exists (<[r:=<[c:=v]> row]> m)].
Qed.

Lemma set_at_values (m m' : grid) p v q x :
  set_at m p v = Some m' → get_at m' q = Some x →
  x = v ∨ get_at m q = Some x.
Proof.
  destruct p as [r c], q as [r' c']. unfold set_at, get_at. simpl.
  destruct (m !! r) as [row|] eqn:Hr; simpl; [|done].
  destruct (row !! c) as [y|] eqn:Hc; simpl; [|done]. intros [= <-].
  destruct (decide (r = r')) as [<-|Hne].
  - rewrite list_lookup_insert_eq by (by eapply lookup_lt_Some).
    rewrite Hr. simpl. destruct (decide (c = c')) as [<-|Hne'].
    + rewrite list_lookup_insert_eq by (by eapply lookup_lt_Some).
      intros [= <-]. by left.
    + rewrite list_lookup_insert_ne by done. by right.
  - rewrite list_lookup_insert_ne by done. by right.
Qed.

Lemma put_at_values (ps : list index) v :
  ∀ (m m' : grid) q x, put_at m ps v = Some m' → get_at m' q = Some x →
    x = v ∨ get_at m q = Some x.
Proof.
  induction ps as [|p ps IH]; intros m m' q x; simpl.
  - intros [= <-]. by right.
  - destruct (set_at m p v) as [m1|] eqn:E; simpl; [|done]. intros H Hx.
    destruct (IH m1 m' q x H Hx) as [?|Hx1]; [by left|].
    by eapply set_at_values.
Qed.

(** Whether a write at a list of coordinates raises depends on the shape of
    the array only. *)
Lemma put_at_None_shape (ps : list index) v :
  ∀ m m' : grid, same_shape m m' → put_at m ps v = None →
    put_at m' ps v = None.
Proof.
  induction ps as [|p ps IH]; intros m m' Hs; simpl; [done|].
  destruct (set_at m p v) as [m1|] eqn:E, (set_at m' p v) as [m1'|] eqn:E';
    simpl; try done.
  - apply IH. apply set_at_same_shape in E, E'.
    eapply same_shape_trans; [exact E|].
    eapply same_shape_trans; [exact Hs|]. by apply same_shape_sym.
  - intros _. exfalso.
    assert (H : is_Some (set_at m' p v)) by (by exists m1').
    apply (proj1 (set_at_is_Some m' p v)) in H.
    apply (get_at_same_shape m' m p (same_shape_sym _ _ Hs)) in H.
    apply (proj2 (set_at_is_Some m p v)) in H.
    rewrite E in H. by destruct H.
Qed.

Lemma np_shape_same (m m' : grid) : same_shape m m' → np_shape m = np_shape m'.
Proof.
  unfold same_shape, np_shape. intros H.
  destruct m as [|a m], m' as [|b m']; try done.
  rewrite !fmap_cons in H. injection H as Ha H. simpl.
  f_equal; [|done]. f_equal.
  by rewrite <- (length_fmap length m), H, length_fmap.
Qed.

Lemma get_at_zeros_like_inv (m : grid) p x :
  get_at (np_zeros_like m) p = Some x → x = 0%Z.
Proof.
  destruct p as [r c]. unfold get_at, np_zeros_like. simpl.
  change (map ?f ?l) with (f <$> l). rewrite list_lookup_fmap.
  destruct (m !! r) as [row|]; simpl; [|done].
  change (map ?f ?l) with (f <$> l). rewrite list_lookup_fmap.
  destruct (row !! c); simpl; [|done]. by intros [= <-].
Qed.

Section ContoursMore.

Variable contour : Type.
Variable level : Type.
Variable find_contours : grid → option level → option (list contour).
Variable contour_len : contour → nat.
Variable astype_int : contour → contour.
Variable polygon_perimeter : contour → nat * nat → option (list index).

Local Abbreviation draw :=
  (draw_contour contour level find_contours contour_len astype_int
     polygon_perimeter).
Local Abbreviation step :=
  (get_contours_step contour level find_contours contour_len astype_int
     polygon_perimeter).
Local Abbreviation loop :=
  (get_contours_loop contour level find_contours contour_len astype_int
     polygon_perimeter).

(** Whether the tracing of an object fails depends on the contour mask
    through its shape only. *)
Lemma draw_contour_None_shape (I : grid) lvl (cm cm' : grid) id :
  same_shape cm cm' → draw I lvl cm id = None → draw I lvl cm' id = None.
Proof.
  intros Hs. unfold draw_contour. rewrite (np_shape_same cm cm' Hs).
  destruct (find_contours _ _); simpl; [|done].
  destruct (select_contour _ _ _ _); simpl; [|done].
  destruct (polygon_perimeter _ _); simpl; [|done].
  by apply put_at_None_shape.
Qed.

Lemma draw_contour_values (I : grid) lvl (cm cm' : grid) id q x :
  draw I lvl cm id = Some cm' → get_at cm' q = Some x →
  x = id ∨ get_at cm q = Some x.
Proof.
  unfold draw_contour. destruct (find_contours _ _); simpl; [|done].
  destruct (select_contour _ _ _ _); simpl; [|done].
  destruct (polygon_perimeter _ _); simpl; [|done].
  apply put_at_values.
Qed.

Lemma get_contours_loop_shape (I : grid) lvl (ids : list Z) :
  ∀ st, same_shape st.1 I → same_shape (loop I lvl st ids).1 I.
Proof.
  unfold get_contours_loop. induction ids as [|id ids IH]; intros st Hs;
    [done|]. simpl.
  by apply IH, get_contours_step_same_shape.
Qed.

Lemma get_contours_loop_values (I : grid) lvl (ids : list Z) :
  ∀ st q x, get_at (loop I lvl st ids).1 q = Some x →
    x ∈ ids ∨ get_at st.1 q = Some x.
Proof.
  unfold get_contours_loop.
  induction ids as [|id ids IH]; intros st q x Hx; simpl in *; [by right|].
  destruct (IH _ q x Hx) as [?|Hx1]; [left; by right|].
  unfold get_contours_step in Hx1.
  destruct (draw I lvl st.1 id) as [cm|] eqn:E; simpl in Hx1; [|by right].
  destruct (draw_contour_values I lvl _ _ id q x E Hx1) as [->|?];
    [left; by left | by right].
Qed.

Lemma get_contours_loop_printed (I : grid) lvl (ids : list Z) :
  ∀ st, same_shape st.1 I →
    (loop I lvl st ids).2
    = st.2 ++ filter (λ id, draw I lvl (np_zeros_like I) id = None) ids.
Proof.
  unfold get_contours_loop.
  induction ids as [|id ids IH]; intros st Hs; simpl.
  - by rewrite filter_nil, app_nil_r.
  - rewrite IH by (by apply get_contours_step_same_shape).
    unfold get_contours_step.
    destruct (draw I lvl st.1 id) as [cm|] eqn:E; simpl.
    + rewrite filter_cons_False; [done|]. intros E0.
      apply (draw_contour_None_shape I lvl _ st.1) in E0; [congruence|].
      eapply same_shape_trans; [apply same_shape_zeros_like|].
      by apply same_shape_sym.
    + rewrite filter_cons_True.
      * by rewrite <- app_assoc.
      * apply (draw_contour_None_shape I lvl st.1); [|done].
        eapply same_shape_trans; [exact Hs|].
        apply same_shape_sym, same_shape_zeros_like.
Qed.

(** [X14] The contour mask has the shape of the instance mask and every
    pixel of it holds 0 or an id listed by [get_unique_objects]. *)
Theorem get_contours_values (I : grid) (lvl : option level) :
  let contour_mask :=
    (get_contours contour level find_contours contour_len astype_int
       polygon_perimeter I lvl).1 in
  same_shape contour_mask I
  ∧ ∀ p x, get_at contour_mask p = Some x →
           x = 0%Z ∨ x ∈ get_unique_objects I.
Proof.
  simpl. unfold get_contours. split.
  - apply get_contours_loop_shape, same_shape_zeros_like.
  - intros p x Hx.
    destruct (get_contours_loop_values I lvl _ _ p x Hx) as [?|H0];
      [by right|]. left. by eapply get_at_zeros_like_inv.
Qed.

(** [X15] The ids printed by [get_contours] are, in ascending order and
    once each, exactly the listed ids whose tracing fails; whether it fails
    does not depend on the contours drawn before. *)
Theorem get_contours_printed (I : grid) (lvl : option level) :
  (get_contours contour level find_contours contour_len astype_int
     polygon_perimeter I lvl).2
  = filter (λ id, draw I lvl (np_zeros_like I) id = None)
      (get_unique_objects I).
Proof.
  unfold get_contours.
  by rewrite get_contours_loop_printed by apply same_shape_zeros_like.
Qed.

End ContoursMore.

(** ** Contour suppression and add_contour *)

Lemma length_select_row v (irow krow lrow : list Z) :
  length irow = length krow → length irow = length lrow →
  length (select_row v irow krow) = length (select_row v irow lrow).
Proof.
  revert krow lrow.
  induction irow as [|i irow IH]; intros [|k krow] [|x lrow] Hk Hl;
    simpl in *; try done.
  destruct (i =? v)%Z; simpl; [f_equal|]; apply IH; lia.
Qed.

Lemma select_row_zip_with (f : Z → Z → Z) v (irow krow lrow : list Z) :
  length irow = length krow → length irow = length lrow →
  select_row v irow (zip_with f krow lrow)
  = zip_with f (select_row v irow krow) (select_row v irow lrow).
Proof.
  revert krow lrow.
  induction irow as [|i irow IH]; intros [|k krow] [|x lrow] Hk Hl;
    simpl in *; try done.
  destruct (i =? v)%Z; simpl; [f_equal|]; apply IH; lia.
Qed.

Lemma select_zip_with (f : Z → Z → Z) v (I K L : grid) :
  same_shape I K → same_shape I L →
  select v I (zip_with (zip_with f) K L)
  = zip_with f (select v I K) (select v I L).
Proof.
  revert K L. induction I as [|irow I IH]; intros [|krow K] [|lrow L] HK HL;
    try done.
  apply same_shape_cons in HK as [Hk HK]. apply same_shape_cons in HL as [Hl HL].
  simpl. rewrite zip_with_app by (by apply length_select_row).
  by rewrite IH, select_row_zip_with.
Qed.

Lemma zip_with_uniform (f : Z → Z → Z) c (ks ls : list Z) :
  length ks = length ls → Forall (eq c) ls →
  zip_with f ks ls = (λ k, f k c) <$> ks.
Proof.
  revert ls. induction ks as [|k ks IH]; intros [|x ls] Hl Hc; try done.
  apply Forall_cons in Hc as [<- Hc]. simpl in *. rewrite IH; [done|lia|done].
Qed.

Lemma length_select (v : Z) (I K L : grid) :
  same_shape I K → same_shape I L →
  length (select v I K) = length (select v I L).
Proof.
  revert K L. induction I as [|irow I IH]; intros [|krow K] [|lrow L] HK HL;
    try done.
  apply same_shape_cons in HK as [Hk HK]. apply same_shape_cons in HL as [Hl HL].
  simpl. rewrite !length_app, (IH K L), (length_select_row v irow krow lrow);
    done.
Qed.

Lemma suppress_contours_Some (K L V : grid) :
  NapariWindow.suppress_contours K L = Some V →
  same_shape K L
  ∧ V = zip_with (zip_with (λ k x, if (k =? 0)%Z then x else 0%Z)) K L.
Proof.
  unfold NapariWindow.suppress_contours.
  destruct (decide (same_shape K L)); [|done]. by intros [= <-].
Qed.

Lemma same_shape_zip_with (f : Z → Z → Z) (K L : grid) :
  same_shape K L → same_shape (zip_with (zip_with f) K L) L.
Proof.
  revert L. induction K as [|krow K IH]; intros [|lrow L] Hs; try done.
  apply same_shape_cons in Hs as [Hl Hs]. simpl. apply same_shape_cons.
  split; [|by apply IH]. rewrite length_zip_with. lia.
Qed.

(** The class values of an object of class [c] after the contour pixels
    were set to 0. *)
Lemma select_suppressed (K L I V : grid) id c :
  same_shape L I → NapariWindow.suppress_contours K L = Some V →
  (∀ p x, get_at I p = Some id → get_at L p = Some x → x = c) →
  same_shape V I
  ∧ take_at K (np_where_eq I id) = Some (select id I K)
  ∧ select id I V = (λ k, if (k =? 0)%Z then c else 0%Z) <$> select id I K.
Proof.
  intros Hs [HsK ->]%suppress_contours_Some Huni.
  assert (HsIK : same_shape I K).
  { eapply same_shape_trans; [by apply same_shape_sym|].
    by apply same_shape_sym. }
  split; [|split].
  - eapply same_shape_trans; [by apply same_shape_zip_with|done].
  - by apply take_at_where.
  - rewrite select_zip_with by (done || by apply same_shape_sym).
    apply (zip_with_uniform (λ k x, if (k =? 0)%Z then x else 0%Z) c).
    + apply length_select; [done|by apply same_shape_sym].
    + by apply select_uniform.
Qed.

Lemma count_suppressed (ks : list Z) c :
  c ≠ 0%Z →
  count c ((λ k, if (k =? 0)%Z then c else 0%Z) <$> ks) = count 0 ks
  ∧ count 0 ((λ k, if (k =? 0)%Z then c else 0%Z) <$> ks) + count 0 ks
    = length ks.
Proof.
  intros Hc. induction ks as [|k ks [IH1 IH2]]; [done|].
  rewrite fmap_cons. cbn [count length].
  destruct (Z.eqb_spec k 0) as [->|Hk].
  - rewrite Z.eqb_refl. destruct (Z.eqb_spec c 0); [done|]. lia.
  - rewrite Z.eqb_refl. destruct (Z.eqb_spec 0 c); [congruence|]. lia.
Qed.

Lemma elem_of_suppressed (ks : list Z) c x :
  x ∈ (λ k, if (k =? 0)%Z then c else 0%Z) <$> ks → x = c ∨ x = 0%Z.
Proof.
  intros (k & -> & _)%list_elem_of_fmap. destruct (k =? 0)%Z; auto.
Qed.

(** [X16] [add_contour] undoes the suppression of the contour for an object
    when the contour covers less than half of it: if the object listed by
    [get_unique_objects] holds the single class [c], the class mask is
    zeroed where the contour mask is not 0, and strictly more than half of
    the pixels of the object are off the contour, then [add_contour] gives
    every pixel of the object the class [c] again. *)
Theorem add_contour_restores_suppressed (K L I V : grid) id c :
  same_shape L I →
  NapariWindow.suppress_contours K L = Some V →
  id ∈ get_unique_objects I →
  (∀ p x, get_at I p = Some id → get_at L p = Some x → x = c) →
  (∃ ks, take_at K (np_where_eq I id) = Some ks
         ∧ length ks < 2 * count 0 ks) →
  ∃ R, add_contour V I = Some R
       ∧ ∀ p, get_at I p = Some id → get_at R p = Some c.
Proof.
  intros Hs HV Hid Huni (ks & Hks & Hhalf).
  destruct (select_suppressed K L I V id c Hs HV Huni) as (HsV & Hks' & Hsel).
  rewrite Hks' in Hks. injection Hks as <-.
  destruct (add_contour_total V I HsV) as (R & HR & _).
  exists R. split; [done|].
  destruct (add_contour_object V I R id HsV HR Hid) as (v & Hv & _ & _ & G).
  intros p Hp. rewrite (G p Hp). f_equal.
  apply majority_lowest in Hv as (Hin & Hmax & _). rewrite Hsel in Hin, Hmax.
  destruct (elem_of_suppressed _ c v Hin) as [->| ->]; [done|].
  destruct (decide (c = 0%Z)) as [->|Hc]; [done|].
  destruct (count_suppressed (select id I K) c Hc) as [E1 E2].
  specialize (Hmax c). lia.
Qed.

Lemma add_contour_restores_suppressed_witness :
  NapariWindow.suppress_contours [[1; 0; 0]; [0; 0; 0]]%Z
    [[5; 5; 5]; [0; 0; 0]]%Z = Some [[0; 5; 5]; [0; 0; 0]]%Z
  ∧ ∃ R, add_contour [[0; 5; 5]; [0; 0; 0]]%Z [[1; 1; 1]; [0; 0; 0]]%Z
         = Some R
         ∧ ∀ p, get_at [[1; 1; 1]; [0; 0; 0]]%Z p = Some 1%Z →
                get_at R p = Some 5%Z.
Proof.
  split; [reflexivity|].
  apply (add_contour_restores_suppressed [[1; 0; 0]; [0; 0; 0]]%Z
           [[5; 5; 5]; [0; 0; 0]]%Z [[1; 1; 1]; [0; 0; 0]]%Z
           [[0; 5; 5]; [0; 0; 0]]%Z 1%Z 5%Z).
  - reflexivity.
  - reflexivity.
  - apply list_elem_of_In. simpl. tauto.
  - intros [[|[|r]] [|[|[|c]]]] x Hp Hx; vm_compute in Hp, Hx; congruence.
  - exists [1; 0; 0]%Z. split; [reflexivity|]. simpl. lia.
Defined.

(** [X17] When the contour covers half of an object or more, the class is
    lost: if the object holds the single positive class [c] and at least
    half of its pixels are on the contour, [add_contour] applied to the
    suppressed class mask gives every pixel of the object the class 0. *)
Theorem add_contour_loses_suppressed (K L I V : grid) id c :
  same_shape L I →
  NapariWindow.suppress_contours K L = Some V →
  id ∈ get_unique_objects I →
  (∀ p x, get_at I p = Some id → get_at L p = Some x → x = c) →
  (0 < c)%Z →
  (∃ ks, take_at K (np_where_eq I id) = Some ks
         ∧ 2 * count 0 ks <= length ks) →
  ∃ R, add_contour V I = Some R
       ∧ ∀ p, get_at I p = Some id → get_at R p = Some 0%Z.
Proof.
  intros Hs HV Hid Huni Hc (ks & Hks & Hhalf).
  destruct (select_suppressed K L I V id c Hs HV Huni) as (HsV & Hks' & Hsel).
  rewrite Hks' in Hks. injection Hks as <-.
  destruct (add_contour_total V I HsV) as (R & HR & _).
  exists R. split; [done|].
  destruct (add_contour_object V I R id HsV HR Hid) as (v & Hv & _ & _ & G).
  intros p Hp. rewrite (G p Hp). f_equal.
  apply majority_lowest in Hv as (Hin & Hmax & Htie).
  rewrite Hsel in Hin, Hmax, Htie.
  destruct (elem_of_suppressed _ c v Hin) as [->| ->]; [|done].
  destruct (count_suppressed (select id I K) c) as [E1 E2]; [lia|].
  specialize (Hmax 0%Z). specialize (Htie 0%Z). lia.
Qed.

Lemma add_contour_loses_suppressed_witness :
  NapariWindow.suppress_contours [[1; 1; 0]; [1; 1; 0]]%Z
    [[5; 5; 0]; [5; 5; 0]]%Z = Some [[0; 0; 0]; [0; 0; 0]]%Z
  ∧ ∃ R, add_contour [[0; 0; 0]; [0; 0; 0]]%Z [[1; 1; 0]; [1; 1; 0]]%Z
         = Some R
         ∧ ∀ p, get_at [[1; 1; 0]; [1; 1; 0]]%Z p = Some 1%Z →
                get_at R p = Some 0%Z.
Proof.
  split; [reflexivity|].
  apply (add_contour_loses_suppressed [[1; 1; 0]; [1; 1; 0]]%Z
           [[5; 5; 0]; [5; 5; 0]]%Z [[1; 1; 0]; [1; 1; 0]]%Z
           [[0; 0; 0]; [0; 0; 0]]%Z 1%Z 5%Z).
  - reflexivity.
  - reflexivity.
  - apply list_elem_of_In. simpl. tauto.
  - intros [[|[|r]] [|[|[|c]]]] x Hp Hx; vm_compute in Hp, Hx; congruence.
  - lia.
  - exists [1; 1; 1; 1]%Z. split; [reflexivity|]. simpl. lia.
Defined.

(** * The napari window *)

(** A second [add_contour] with the same instance mask changes nothing. *)
Lemma add_contour_fixed (C I R : grid) :
  same_shape C I → add_contour C I = Some R → add_contour R I = Some R.
Proof.
  intros Hs HR.
  destruct (loop_frame I _ _ (add_contour_writes_only I _) C R
              (same_shape_sym _ _ Hs) HR) as [HsR _].
  unfold add_contour. apply foldM_fixed. intros id Hid.
  destruct (add_contour_object C I R id Hs HR Hid) as (v & _ & Hne & Hall & _).
  rewrite (add_contour_step_eq I R id HsR).
  rewrite (majority_uniform _ v Hne Hall). simpl.
  by rewrite (assign_fixed id v I R Hall).
Qed.

(** [X18] [update_instance_mask] deletes an object on the vote: on masks of
    one shape it stores as the instance snapshot of the selected layer the
    instance mask in which every pixel of an object listed by
    [get_unique_objects] is 0 when the vote over the class values of the
    object (a value of highest pixel count, the least of those tied) is 0
    and keeps its id otherwise, and every other pixel is as it was; the
    class snapshot is the result of [add_contour], and the state
    of the layer is coherent. *)
Theorem update_instance_mask_deletes_on_vote
  (w : NapariWindow.window) (I L : grid) :
  same_shape L I →
  ∃ w' new_instance_mask new_class_mask,
    NapariWindow.update_instance_mask w I L = Some (w', new_instance_mask)
    ∧ add_contour L I = Some new_class_mask
    ∧ NapariWindow.cur_selected_seg w' = NapariWindow.cur_selected_seg w
    ∧ NapariWindow.original_instance_mask w'
        !! NapariWindow.cur_selected_seg w = Some new_instance_mask
    ∧ NapariWindow.original_class_mask w'
        !! NapariWindow.cur_selected_seg w = Some new_class_mask
    ∧ window_ok w'
    ∧ (∀ id p, id ∈ get_unique_objects I → get_at I p = Some id →
         ∃ sel v, take_at L (np_where_eq I id) = Some sel
                  ∧ majority sel = Some v
                  ∧ lowest_majority v sel
                  ∧ get_at new_instance_mask p
                    = Some (if (v =? 0)%Z then 0%Z else id))
    ∧ (∀ x p, x ∉ get_unique_objects I → get_at I p = Some x →
         get_at new_instance_mask p = Some x).
Proof.
  intros Hs. unfold NapariWindow.update_instance_mask.
  destruct (add_contour_total L I Hs) as (L' & HL' & HsL').
  assert (HsL'I : same_shape L' I) by by apply same_shape_sym.
  destruct (compute_new_instance_mask_zero_set L' I HsL'I) as (D & HD & Hmem).
  rewrite HL'. simpl. rewrite HD. simpl.
  eexists _, (zero_set D I), L'. split; [done|]. split; [done|].
  split; [done|]. simpl. rewrite !lookup_insert_eq.
  split; [done|]. split; [done|]. split.
  { exists (zero_set D I), L'. simpl. rewrite !lookup_insert_eq.
    split; [done|]. split; [done|]. split; [done|].
    eapply same_shape_trans; [apply same_shape_zero_set|done]. }
  split.
  - intros id p Hid Hp.
    destruct (add_contour_object L I L' id Hs HL' Hid)
      as (v & Hv & Hne & Hall & _).
    exists (select id I L), v.
    split; [by apply take_at_where, same_shape_sym|]. split; [done|].
    split; [by apply majority_lowest|].
    rewrite get_at_zero_set, Hp. simpl. f_equal.
    destruct (decide (id = 0%Z)) as [->|Hid0].
    { destruct (decide (0%Z ∈ D)), (v =? 0)%Z; done. }
    assert (Hu : np_unique (select id I L') = [v]).
    { apply np_unique_singleton; [done|]. intros y Hy. symmetry.
      by eapply Forall_forall in Hall. }
    specialize (Hmem id Hid0). rewrite Hu in Hmem.
    destruct (Z.eqb_spec v 0) as [->|Hv0].
    + rewrite decide_True; [done|]. by apply Hmem.
    + rewrite decide_False; [done|]. rewrite Hmem. intros [_ [= ?]]. done.
  - intros x p Hx Hp. rewrite get_at_zero_set, Hp. simpl. f_equal.
    destruct (decide (x ∈ D)) as [HxD|]; [|done].
    destruct (decide (x = 0%Z)) as [->|Hx0]; [done|].
    apply (Hmem x Hx0) in HxD as [? _]. done.
Qed.

Lemma update_instance_mask_deletes_on_vote_witness :
  let w := {| NapariWindow.cur_selected_seg := "cell_seg";
              NapariWindow.active_mask_index := 0;
              NapariWindow.original_instance_mask := ∅;
              NapariWindow.original_class_mask := ∅;
              NapariWindow.instances := ∅;
              NapariWindow.contours_mask := ∅ |} in
  ∃ w' new_instance_mask,
    NapariWindow.update_instance_mask w [[1; 1; 1]; [2; 2; 0]]%Z
      [[0; 0; 5]; [7; 7; 0]]%Z = Some (w', new_instance_mask)
    ∧ get_at new_instance_mask (0, 2) = Some 0%Z
    ∧ get_at new_instance_mask (1, 0) = Some 2%Z.
Proof.
  intros w.
  destruct (update_instance_mask_deletes_on_vote w [[1; 1; 1]; [2; 2; 0]]%Z
              [[0; 0; 5]; [7; 7; 0]]%Z eq_refl)
    as (w' & m & c & Hu & _ & _ & _ & _ & _ & Hvote & _).
  exists w', m. split; [exact Hu|]. split.
  - destruct (Hvote 1%Z (0, 2)) as (sel & v & Hsel & Hv & _ & ->);
      [apply list_elem_of_In; simpl; tauto|reflexivity|].
    vm_compute in Hsel. injection Hsel as <-.
    vm_compute in Hv. by injection Hv as <-.
  - destruct (Hvote 2%Z (1, 0)) as (sel & v & Hsel & Hv & _ & ->);
      [apply list_elem_of_In; simpl; tauto|reflexivity|].
    vm_compute in Hsel. injection Hsel as <-.
    vm_compute in Hv. by injection Hv as <-.
Defined.

Section WindowTracer.

Variable contour : Type.
Variable level : Type.
Variable find_contours : grid → option level → option (list contour).
Variable contour_len : contour → nat.
Variable astype_int : contour → contour.
Variable polygon_perimeter : contour → nat * nat → option (list index).

Local Abbreviation update_labels_mask :=
  (NapariWindow.update_labels_mask contour level find_contours contour_len
     astype_int polygon_perimeter).
Local Abbreviation axis_changed :=
  (NapariWindow.axis_changed contour level find_contours contour_len
     astype_int polygon_perimeter).

(** [X19] In a coherent window state [update_labels_mask] does not raise,
    and it leaves the state coherent: called with an instance mask of the
    shape of the snapshots, it stores the mask as the instance snapshot
    and the result of [compute_new_labels_mask] as the class snapshot, and
    hands to the layer a class mask of the same shape. *)
Theorem update_labels_mask_keeps_window_ok
  (w : NapariWindow.window) (I O C : grid) :
  window_ok w →
  NapariWindow.original_instance_mask w !! NapariWindow.cur_selected_seg w
  = Some O →
  NapariWindow.original_class_mask w !! NapariWindow.cur_selected_seg w
  = Some C →
  same_shape I O →
  ∃ w' vis_labels_mask new_class_mask,
    update_labels_mask w I = Some (w', vis_labels_mask)
    ∧ compute_new_labels_mask C I O (get_unique_objects O)
      = Some new_class_mask
    ∧ NapariWindow.original_instance_mask w'
        !! NapariWindow.cur_selected_seg w = Some I
    ∧ NapariWindow.original_class_mask w'
        !! NapariWindow.cur_selected_seg w = Some new_class_mask
    ∧ same_shape vis_labels_mask I
    ∧ window_ok w'.
Proof.
  intros (O' & C' & HO' & HC' & Hids & HsOC) HO HC HsI.
  rewrite HO in HO'. injection HO' as <-.
  rewrite HC in HC'. injection HC' as <-.
  assert (HsIC : same_shape I C) by by eapply same_shape_trans.
  destruct (labels_total C I O (get_unique_objects O) HsIC HsOC)
    as (R & HR & HsR); [apply get_unique_objects_occur|].
  unfold NapariWindow.update_labels_mask. rewrite HC, HO, Hids. simpl.
  rewrite HR. simpl.
  assert (HsK : same_shape (NapariWindow.contours_of contour level
                              find_contours contour_len astype_int
                              polygon_perimeter I) R).
  { unfold NapariWindow.contours_of, get_contours.
    eapply same_shape_trans;
      [apply get_contours_loop_shape, same_shape_zeros_like|].
    eapply same_shape_trans; [exact HsIC|]. by apply same_shape_sym. }
  unfold NapariWindow.suppress_contours. rewrite decide_True by done. simpl.
  eexists _, _, R. split; [done|]. split; [done|]. simpl.
  rewrite !lookup_insert_eq. split; [done|]. split; [done|]. split.
  - eapply same_shape_trans; [by apply same_shape_zip_with|].
    eapply same_shape_trans; [exact HsR|]. by apply same_shape_sym.
  - exists I, R. simpl. rewrite !lookup_insert_eq.
    split; [done|]. split; [done|]. split; [done|].
    eapply same_shape_trans; [exact HsIC|]. by apply same_shape_sym.
Qed.

(** [X20] Switching to the instance channel applies [add_contour] twice,
    once in [axis_changed] and once in [update_instance_mask], on the same
    array; the second application changes nothing, so when the class mask
    with contours differs from the snapshot as a boolean mask the method
    does what [update_instance_mask] does on the masks of the layer, and
    otherwise it leaves the state as it is. *)
Theorem axis_changed_to_instance
  (w : NapariWindow.window) (masks : grid * grid) (C : grid) :
  same_shape masks.2 masks.1 →
  NapariWindow.original_class_mask w !! NapariWindow.cur_selected_seg w
  = Some C →
  ∃ class_mask_with_contours,
    add_contour masks.2 masks.1 = Some class_mask_with_contours
    ∧ axis_changed w 0 masks
      = let w0 := NapariWindow.set_active_mask_index w 0 in
        if bool_decide (NapariWindow.astype_bool class_mask_with_contours
                        = NapariWindow.astype_bool C)
        then Some (w0, NapariWindow.ShowNothing)
        else (λ r, (r.1, NapariWindow.ShowInstance r.2))
               <$> NapariWindow.update_instance_mask w0 masks.1 masks.2.
Proof.
  intros Hs HC. destruct (add_contour_total _ _ Hs) as (Lc & HLc & _).
  exists Lc. split; [done|].
  unfold NapariWindow.axis_changed. simpl. rewrite HLc. simpl.
  rewrite HC. simpl. destruct (bool_decide _); simpl; [done|].
  unfold NapariWindow.update_instance_mask.
  rewrite (add_contour_fixed _ _ _ Hs HLc), HLc. simpl.
  by destruct (compute_new_instance_mask Lc masks.1).
Qed.

End WindowTracer.

Section CurateFacts.

Variable label : list (list bool) → grid.

(** [X21] A click on "Move to 'Curated dataset' folder" never ends in the
    mismatch warning: on a segmentation whose channels have one shape the
    method returns, the outcome is no [MismatchWarning], and a saved
    segmentation is the instance channel with the result of [add_contour]
    as its class channel. *)
Theorem curate_never_reports_mismatch
  (cur_selected_path train_data_path seg_name_to_save : string)
  (seg : grid * grid) :
  same_shape seg.2 seg.1 →
  ∃ outcome data,
    NapariWindow.on_add_to_curated_button_clicked label cur_selected_path
      train_data_path seg_name_to_save seg = Some (outcome, data)
    ∧ (∀ ids, outcome ≠ NapariWindow.MismatchWarning ids)
    ∧ (∀ file_name saved, outcome = NapariWindow.Saved file_name saved →
         saved = data ∧ saved.1 = seg.1
         ∧ add_contour seg.2 seg.1 = Some saved.2).
Proof.
  intros Hs. unfold NapariWindow.on_add_to_curated_button_clicked.
  destruct (String.eqb _ _); [by eexists _, _|].
  destruct (negb _); [by eexists _, _|].
  destruct (add_contour_total _ _ Hs) as (R & HR & HsR). rewrite HR. simpl.
  destruct (assert_loop_no_mismatch label seg.1 R (get_unique_objects seg.1))
    with (a := false) (fa := @nil Z) as (a & fa & Hf).
  { intros id Hid.
    destruct (add_contour_object _ _ R id Hs HR Hid) as (v & _ & _ & Hall & _).
    exists (select id seg.1 R). split; [by apply take_at_where|].
    by eapply np_unique_uniform_length. }
  unfold assert_consistent_labels. rewrite Hf. simpl.
  destruct a; eexists _, _; (split; [done|]); split; try done.
  intros f s [= <- <-]. done.
Qed.

End CurateFacts.

Lemma update_labels_mask_keeps_window_ok_witness :
  let w := {| NapariWindow.cur_selected_seg := "cell_seg";
              NapariWindow.active_mask_index := 1;
              NapariWindow.original_instance_mask :=
                {["cell_seg" := [[1; 1; 0]; [0; 0; 0]]%Z]};
              NapariWindow.original_class_mask :=
                {["cell_seg" := [[4; 4; 0]; [0; 0; 0]]%Z]};
              NapariWindow.instances := {["cell_seg" := [1%Z]]};
              NapariWindow.contours_mask := ∅ |} in
  window_ok w
  ∧ ∃ w' vis,
      NapariWindow.update_labels_mask (list index) unit px_find_contours
        length id px_polygon_perimeter w [[1; 1; 0]; [1; 0; 2]]%Z
      = Some (w', vis)
      ∧ window_ok w'.
Proof.
  intros w.
  assert (Hok : window_ok w).
  { exists [[1; 1; 0]; [0; 0; 0]]%Z, [[4; 4; 0]; [0; 0; 0]]%Z.
    repeat split. }
  split; [exact Hok|].
  destruct (update_labels_mask_keeps_window_ok (list index) unit
              px_find_contours length id px_polygon_perimeter w
              [[1; 1; 0]; [1; 0; 2]]%Z [[1; 1; 0]; [0; 0; 0]]%Z
              [[4; 4; 0]; [0; 0; 0]]%Z Hok eq_refl eq_refl eq_refl)
    as (w' & vis & c & Hu & _ & _ & _ & _ & Hok').
  by exists w', vis.
Defined.

Lemma axis_changed_to_instance_witness :
  let w := {| NapariWindow.cur_selected_seg := "cell_seg";
              NapariWindow.active_mask_index := 1;
              NapariWindow.original_instance_mask :=
                {["cell_seg" := [[1; 1; 0]; [2; 2; 0]]%Z]};
              NapariWindow.original_class_mask :=
                {["cell_seg" := [[4; 4; 0]; [7; 7; 0]]%Z]};
              NapariWindow.instances := {["cell_seg" := [1; 2]%Z]};
              NapariWindow.contours_mask := ∅ |} in
  ∃ w' m,
    NapariWindow.axis_changed (list index) unit px_find_contours length id
      px_polygon_perimeter w 0
      ([[1; 1; 0]; [2; 2; 0]]%Z, [[0; 0; 0]; [7; 0; 0]]%Z)
    = Some (w', NapariWindow.ShowInstance m)
    ∧ m = [[0; 0; 0]; [0; 0; 0]]%Z.
Proof.
  intros w.
  destruct (axis_changed_to_instance (list index) unit px_find_contours
              length id px_polygon_perimeter w
              ([[1; 1; 0]; [2; 2; 0]]%Z, [[0; 0; 0]; [7; 0; 0]]%Z)
              [[4; 4; 0]; [7; 7; 0]]%Z eq_refl eq_refl)
    as (Lc & HLc & Hax).
  vm_compute in HLc. injection HLc as <-.
  rewrite Hax. eexists _, _. split; reflexivity.
Defined.

Lemma curate_never_reports_mismatch_witness :
  ∃ outcome data,
    NapariWindow.on_add_to_curated_button_clicked (λ _, [])
      "in_prog" "train_data_path" "cell_seg"
      ([[1; 1; 0]; [0; 2; 2]]%Z, [[3; 9; 0]; [0; 7; 7]]%Z)
    = Some (outcome, data)
    ∧ outcome = NapariWindow.Saved "cell_seg.tiff"
                  ([[1; 1; 0]; [0; 2; 2]]%Z, [[3; 3; 0]; [0; 7; 7]]%Z).
Proof.
  destruct (curate_never_reports_mismatch (λ _, [])
              "in_prog" "train_data_path" "cell_seg"
              ([[1; 1; 0]; [0; 2; 2]]%Z, [[3; 9; 0]; [0; 7; 7]]%Z) eq_refl)
    as (o & d & Ho & _ & _).
  exists o, d. split; [exact Ho|].
  vm_compute in Ho. by injection Ho as <- <-.
Defined.
